(** * The bidirectional TTS session client of doubao_screenplay_processor

    A shallow embedding of [bidirection_client.py] (class
    [BidirectionTTSClient]) and of the segment loop of
    [process_text_to_voice.py], with the properties of the client's connection
    life cycle stated over it.

    The client is asynchronous Python: every [await] is a point where the
    program talks to its environment.  One call is a single sequential flow,
    so it is modelled as a state-and-exception computation over a [World]
    that holds the scripted behaviour of the servers to come, the uuid
    supply and the file system; what the transport and the logger see is
    returned as a chronological list of observations.  Output on stdout
    ([print]) is not observed and is left out, and a task is not cancelled
    from outside while it runs. *)

From Stdlib Require Import ZArith String Strings.Byte Floats.PrimFloat.
From stdpp Require Import gmap strings list pretty.
From Equations Require Import Equations.

Open Scope string_scope.
Open Scope list_scope.

#[local] Set Warnings "-register-all".

(* ================================================================== *)
(** ** Data model *)
(* ================================================================== *)

Definition bytes := list byte.

(** Python numbers as the prosody arguments receive them: the parameters are
    annotated [float], the command line hands over [int]s and the web form
    floats. *)
Inductive PyNum :=
| PInt (z : Z)
| PFloat (f : float).

(** [x != 0] on a Python number: on floats this is IEEE inequality, so
    [-0.0 != 0] is false and [nan != 0] is true. *)
Definition py_ne_zero (x : PyNum) : bool :=
  match x with
  | PInt z => negb (z =? 0)%Z
  | PFloat f => negb (PrimFloat.eqb f 0%float)
  end.

(** [s != t] on Python strings. *)
Definition py_str_ne (s t : string) : bool := negb (String.eqb s t).

(** Modelled from the spec: the [MsgType] enumeration of the [protocols]
    module, which the client imports and which is not among the sources
    (spec section 3: a closed set of four mutually exclusive kinds). *)
Inductive MsgType :=
| FullClientRequest
| FullServerResponse
| AudioOnlyServer
| Error.

(** Modelled from the spec: the [EventType] enumeration of the [protocols]
    module (spec section 3: connection-, session- and task-scoped events). *)
Inductive EventType :=
| StartConnection
| ConnectionStarted
| FinishConnection
| ConnectionFinished
| StartSession
| SessionStarted
| FinishSession
| SessionFinished
| TaskRequest.

Global Instance MsgType_eq_dec : EqDecision MsgType.
Proof. solve_decision. Defined.

Global Instance EventType_eq_dec : EqDecision EventType.
Proof. solve_decision. Defined.

(** Modelled from the spec: a decoded inbound message (spec section 4.2):
    its [type], its [event] (absent on pure audio frames) and its payload
    bytes. *)
Record Message := mkMessage {
  type : MsgType;
  event : option EventType;
  payload : bytes;
}.

(** JSON values as the client builds them.  A Python [dict] keeps insertion
    order and [json.dumps] writes it in that order, so an object is an
    association list.  [JEvent] is an [EventType] member written as its
    numeric code; [JDumps j] is the string [json.dumps(j)] stored as a
    value (the [additions] field). *)
Inductive json :=
| JStr (s : string)
| JNum (n : PyNum)
| JBool (b : bool)
| JEvent (e : EventType)
| JDumps (j : json)
| JObj (kvs : list (string * json)).

(** [d[k]] read, as an option. *)
Fixpoint dict_get (k : string) (kvs : list (string * json)) : option json :=
  match kvs with
  | [] => None
  | (k', v) :: rest => if String.eqb k k' then Some v else dict_get k rest
  end.

(** [d[k] = v]: an existing key keeps its place, a new key goes last. *)
Fixpoint dict_set (k : string) (v : json) (kvs : list (string * json))
  : list (string * json) :=
  match kvs with
  | [] => [(k, v)]
  | (k', v') :: rest =>
      if String.eqb k k' then (k, v) :: rest else (k', v') :: dict_set k v rest
  end.

Definition dict_keys (kvs : list (string * json)) : list string := kvs.*1.

Definition obj_get (k : string) (j : json) : option json :=
  match j with
  | JObj kvs => dict_get k kvs
  | _ => None
  end.

Definition obj_set (k : string) (v : json) (j : json) : json :=
  match j with
  | JObj kvs => JObj (dict_set k v kvs)
  | _ => j
  end.

(** [d[k1][k2][k3] = v] on nested objects. *)
Definition obj_set3 (k1 k2 k3 : string) (v : json) (j : json) : json :=
  match obj_get k1 j with
  | Some j1 =>
      match obj_get k2 j1 with
      | Some j2 => obj_set k1 (obj_set k2 (obj_set k3 v j2) j1) j
      | None => j
      end
  | None => j
  end.

(** [d[k1][k2] = v]. *)
Definition obj_set2 (k1 k2 : string) (v : json) (j : json) : json :=
  match obj_get k1 j with
  | Some j1 => obj_set k1 (obj_set k2 v j1) j
  | None => j
  end.

(** [d[k1][k2]] read. *)
Definition obj_get2 (k1 k2 : string) (j : json) : option json :=
  match obj_get k1 j with
  | Some j1 => obj_get k2 j1
  | None => None
  end.

(** The object under [req_params.audio_params] of a request. *)
Definition audio_params_of (j : json) : list (string * json) :=
  match obj_get2 "req_params" "audio_params" j with
  | Some (JObj kvs) => kvs
  | _ => []
  end.

(** Modelled from the spec: a frame the client sends through the senders of
    the [protocols] module ([start_connection], [start_session],
    [task_request], [finish_session], [finish_connection]): a
    [FullClientRequest] with an event, for session-scoped events a session
    id, and a JSON payload (kept as the value that [json.dumps] serialises;
    the connection-level senders carry the empty object). *)
Record Frame := mkFrame {
  f_event : EventType;
  f_session : option string;
  f_payload : json;
}.

(** The exceptions of the model. *)
Inductive Exn :=
| ConnectionClosed                       (* the stream ended or was closed *)
| NetError (label : string)              (* any other transport or decoding error *)
| TTSConversionFailed (msg : Message)    (* RuntimeError(f"TTS conversion failed: {msg}") *)
| NoAudioData                            (* RuntimeError("No audio data received") *)
| UnexpectedKeyword (name : string).     (* TypeError: unexpected keyword argument *)

(** What the next [receive_message] meets. *)
Inductive Inbound :=
| InMsg (m : Message)
| InRaise (e : Exn).

(** The scripted other side of one connection: whether the opening is
    accepted, the outcome of each successive send ([None]: delivered; past
    the end of the list every send is delivered), and what successive
    receives meet (past the end of the list the stream is closed).  Every
    receive therefore comes back; a server that keeps the stream open and
    stays silent for ever, on which a call never exits, is not a script. *)
Record Server := mkServer {
  accept : option Exn;
  sends : list (option Exn);
  inbound : list Inbound;
}.

Inductive LogEntry :=
| LogConnecting (endpoint : string) (headers : list (string * string))
| LogConnected
| LogAudioSaved (output_file : string) (nbytes : nat) (speaker resource : string)
| LogConnectionClosed
| LogGenerating (i n : nat) (voice : string)
| LogTtsFailed (i : nat) (e : Exn).

(** What the transport and the logger observe, in order. *)
Inductive Obs :=
| OConnect (endpoint : string) (headers : list (string * string)) (max_size : Z)
| OSent (f : Frame)
| OSendFailed (f : Frame)
| ORecv (m : Message)
| OClosed
| OLog (l : LogEntry).

Record World := mkWorld {
  uuid_ctr : nat;                 (* how many uuids were drawn so far *)
  pending : list Server;          (* the servers of the connections to come *)
  conn : Server;                  (* the connection in use *)
  fs : gmap string bytes;         (* regular files by path *)
}.

Definition set_conn (c : Server) (w : World) : World :=
  mkWorld (uuid_ctr w) (pending w) c (fs w).

(* ================================================================== *)
(** ** Computations: state, exceptions, observations *)
(* ================================================================== *)

(** An exception in flight, with the exception that was being handled when
    it was raised (Python's [__context__]). *)
Inductive Outcome (A : Type) :=
| Returned (a : A)
| Raised (e : Exn) (ctx : option Exn).
Arguments Returned {A} a.
Arguments Raised {A} e ctx.

Record Run (A : Type) := mkRun {
  r_obs : list Obs;
  r_world : World;
  r_out : Outcome A;
}.
Arguments mkRun {A} r_obs r_world r_out.
Arguments r_obs {A} r.
Arguments r_world {A} r.
Arguments r_out {A} r.

Definition M (A : Type) : Type := World -> Run A.

Definition ret {A} (a : A) : M A := fun w => mkRun [] w (Returned a).

Definition raise {A} (e : Exn) : M A := fun w => mkRun [] w (Raised e None).

Definition bind {A B} (m : M A) (k : A -> M B) : M B :=
  fun w =>
    let r := m w in
    match r_out r with
    | Returned a =>
        let r' := k a (r_world r) in
        mkRun (r_obs r ++ r_obs r') (r_world r') (r_out r')
    | Raised e c => mkRun (r_obs r) (r_world r) (Raised e c)
    end.

Declare Scope py_scope.
Delimit Scope py_scope with py.
Notation "x <- m ;; k" := (bind m (fun x => k))
  (at level 100, m at next level, right associativity) : py_scope.
Notation "m ;; k" := (bind m (fun _ => k))
  (at level 100, right associativity) : py_scope.
Open Scope py_scope.

Definition emit (o : Obs) : M unit := fun w => mkRun [o] w (Returned tt).

(** [try: body finally: fin].  The [finally] block runs on every exit of the
    body.  If it completes, the body's outcome stands; if it raises, its
    exception replaces the body's outcome, and an exception of the body is
    kept only as the context of the new one. *)
Definition try_finally {A} (body : M A) (fin : M unit) : M A :=
  fun w =>
    let r := body w in
    let r' := fin (r_world r) in
    mkRun (r_obs r ++ r_obs r') (r_world r')
      match r_out r' with
      | Returned _ => r_out r
      | Raised e' c' =>
          match r_out r with
          | Returned _ => Raised e' c'
          | Raised e _ => Raised e' (Some e)
          end
      end.

(** [try: body except Exception as e: handler(e)]: every exception of the
    model is an [Exception]. *)
Definition try_except {A} (body : M A) (handler : Exn -> M A) : M A :=
  fun w =>
    let r := body w in
    match r_out r with
    | Returned a => r
    | Raised e _ =>
        let r' := handler e (r_world r) in
        mkRun (r_obs r ++ r_obs r') (r_world r') (r_out r')
    end.

(* ------------------------------------------------------------------ *)
(** *** The environment's operations *)

(** The text of the [n]-th uuid drawn. *)
Definition uuid_str (n : nat) : string := "uuid-" +:+ pretty n.

(** [str(uuid.uuid4())]: uuids are modelled as a supply that never repeats. *)
Definition uuid4 : M string :=
  fun w =>
    mkRun [] (mkWorld (S (uuid_ctr w)) (pending w) (conn w) (fs w))
      (Returned (uuid_str (uuid_ctr w))).

(** [logger.info(...)] and [logger.error(...)]: the line goes to the log. *)
Definition logger_info (l : LogEntry) : M unit := emit (OLog l).

Definition logger_error (l : LogEntry) : M unit := emit (OLog l).

(** [websockets.connect(endpoint, additional_headers=headers, max_size=...)]:
    the attempt is observed with its headers; it meets the next scripted
    server, and fails when there is none or when that server refuses. *)
Definition ws_connect (endpoint : string) (headers : list (string * string))
    (max_size : Z) : M unit :=
  fun w =>
    match pending w with
    | [] => mkRun [OConnect endpoint headers max_size] w (Raised ConnectionClosed None)
    | s :: rest =>
        let w' := mkWorld (uuid_ctr w) rest (conn w) (fs w) in
        match accept s with
        | Some e => mkRun [OConnect endpoint headers max_size] w' (Raised e None)
        | None =>
            mkRun [OConnect endpoint headers max_size] (set_conn s w') (Returned tt)
        end
    end.

(** One frame handed to the transport. *)
Definition ws_send (f : Frame) : M unit :=
  fun w =>
    let c := conn w in
    match sends c with
    | Some e :: rest =>
        mkRun [OSendFailed f] (set_conn (mkServer (accept c) rest (inbound c)) w)
          (Raised e None)
    | None :: rest =>
        mkRun [OSent f] (set_conn (mkServer (accept c) rest (inbound c)) w)
          (Returned tt)
    | [] => mkRun [OSent f] w (Returned tt)
    end.

(** [websocket.close()], which is taken to succeed. *)
Definition ws_close : M unit := emit OClosed.

(** [with open(path, "wb") as f: f.write(data)], on a path that can be
    written. *)
Definition write_file (path : string) (data : bytes) : M unit :=
  fun w =>
    mkRun [] (mkWorld (uuid_ctr w) (pending w) (conn w) (<[path := data]> (fs w)))
      (Returned tt).

(** [os.path.exists(path)] for regular files. *)
Definition path_exists (path : string) : M bool :=
  fun w => mkRun [] w (Returned (bool_decide (is_Some (fs w !! path)))).

(** What the body of a [while True: msg = await receive_message(ws); ...]
    loop decides after one message. *)
Inductive LoopCtl (S A : Type) :=
| Continue (s : S)
| Break (a : A)
| Throw (e : Exn).
Arguments Continue {S A} s.
Arguments Break {S A} a.
Arguments Throw {S A} e.

(** The loop itself, over what the receives will meet: the observations, what
    is left of the inbound stream, and the outcome.  Every turn takes one
    element of the stream, and a stream that has ended raises
    [ConnectionClosed] in [receive_message]. *)
Fixpoint while_receive_from {S A} (body : S -> Message -> LoopCtl S A) (s : S)
    (inb : list Inbound) : list Obs * list Inbound * Outcome A :=
  match inb with
  | [] => ([], [], Raised ConnectionClosed None)
  | InRaise e :: rest => ([], rest, Raised e None)
  | InMsg m :: rest =>
      match body s m with
      | Continue s' =>
          let '(o, remaining, out) := while_receive_from body s' rest in
          (ORecv m :: o, remaining, out)
      | Break a => ([ORecv m], rest, Returned a)
      | Throw e => ([ORecv m], rest, Raised e None)
      end
  end.

Definition while_receive {S A} (body : S -> Message -> LoopCtl S A) (s : S) : M A :=
  fun w =>
    let c := conn w in
    let '(o, remaining, out) := while_receive_from body s (inbound c) in
    mkRun o (set_conn (mkServer (accept c) (sends c) remaining) w) out.

(* ------------------------------------------------------------------ *)
(** *** The [protocols] module *)

(** Modelled from the spec: [wait_for_event(ws, msg_type, event_type)] of the
    [protocols] module, which is not among the sources (spec section 4.3,
    step 2: a filtering blocking-read loop; any other message received while
    waiting is discarded; the wait fails when the transport closes or
    errors). *)
Definition wait_for_event (msg_type : MsgType) (event_type : EventType) : M Message :=
  while_receive
    (fun (_ : unit) msg =>
       if bool_decide (type msg = msg_type ∧ event msg = Some event_type)
       then Break msg else Continue tt)
    tt.

(** Modelled from the spec: the senders of the [protocols] module (spec
    section 4.3, steps 2 to 5 and 8). *)
Definition start_connection : M unit :=
  ws_send (mkFrame StartConnection None (JObj [])).

Definition finish_connection : M unit :=
  ws_send (mkFrame FinishConnection None (JObj [])).

Definition start_session (payload : json) (session_id : string) : M unit :=
  ws_send (mkFrame StartSession (Some session_id) payload).

Definition task_request (payload : json) (session_id : string) : M unit :=
  ws_send (mkFrame TaskRequest (Some session_id) payload).

Definition finish_session (session_id : string) : M unit :=
  ws_send (mkFrame FinishSession (Some session_id) (JObj [])).

(* ================================================================== *)
(** ** [bidirection_client.py]: class [BidirectionTTSClient] *)
(* ================================================================== *)

Record BidirectionTTSClient := mkClient {
  appid : string;
  access_token : string;
  endpoint : string;
  max_size : Z;
  sample_rate : Z;
}.

(** [BidirectionTTSClient(appid=..., access_token=...)] with the defaults of
    [__init__]. *)
Definition new_client (appid access_token : string) : BidirectionTTSClient :=
  mkClient appid access_token
    "wss://openspeech.bytedance.com/api/v3/tts/bidirection"
    (10 * 1024 * 1024) 24000.

(** The parameters of [synthesize_to_file]. *)
Record Args := mkArgs {
  text : string;
  voice_type : string;
  resource_id : string;
  output_file : string;
  encoding : string;
  speech_rate : PyNum;
  loudness_rate : PyNum;
  emotion : string;
  emotion_scale : PyNum;
}.

(** The defaults of the optional parameters: [encoding="mp3"],
    [speech_rate=0], [loudness_rate=0], [emotion="neutral"],
    [emotion_scale=0]. *)
Definition default_args (text voice_type resource_id output_file : string) : Args :=
  mkArgs text voice_type resource_id output_file
    "mp3" (PInt 0) (PInt 0) "neutral" (PInt 0).

(** Lines 57-62: the headers of the opening request. *)
Definition connect_headers (self : BidirectionTTSClient) (resource_id connect_id : string)
  : list (string * string) :=
  [ ("X-Api-App-Key", appid self);
    ("X-Api-Access-Key", access_token self);
    ("X-Api-Resource-Id", resource_id);
    ("X-Api-Connect-Id", connect_id) ].

(** Lines 80-92: [base_request]. *)
Definition base_request (self : BidirectionTTSClient) (a : Args) (uid : string) : json :=
  JObj
    [ ("user", JObj [ ("uid", JStr uid) ]);
      ("namespace", JStr "BidirectionalTTS");
      ("req_params",
        JObj
          [ ("speaker", JStr (voice_type a));
            ("audio_params",
              JObj
                [ ("format", JStr (encoding a));
                  ("sample_rate", JNum (PInt (sample_rate self)));
                  ("enable_timestamp", JBool true) ]);
            ("additions",
              JDumps (JObj [ ("disable_markdown_filter", JBool false) ])) ]) ].

(** Lines 97-106: [start_session_request], a deep copy of the base request
    with the event and with each prosody field that differs from its unset
    value.  JSON values are immutable here, so the copy is the value
    itself. *)
Definition start_session_request (a : Args) (base : json) : json :=
  let r := obj_set "event" (JEvent StartSession) base in
  let r :=
    if py_ne_zero (speech_rate a)
    then obj_set3 "req_params" "audio_params" "speech_rate" (JNum (speech_rate a)) r
    else r in
  let r :=
    if py_ne_zero (loudness_rate a)
    then obj_set3 "req_params" "audio_params" "loudness_rate" (JNum (loudness_rate a)) r
    else r in
  let r :=
    if py_str_ne (emotion a) "neutral"
    then obj_set3 "req_params" "audio_params" "emotion" (JStr (emotion a)) r
    else r in
  let r :=
    if py_ne_zero (emotion_scale a)
    then obj_set3 "req_params" "audio_params" "emotion_scale" (JNum (emotion_scale a)) r
    else r in
  r.

(** Lines 115-117: [synthesis_request]. *)
Definition synthesis_request (a : Args) (base : json) : json :=
  let r := obj_set "event" (JEvent TaskRequest) base in
  obj_set2 "req_params" "text" (JStr (text a)) r.

(** Lines 74-123: start the connection, start the session, send the text in
    one task, finish the session. *)
Definition steps_2_to_5 (self : BidirectionTTSClient) (a : Args) : M unit :=
  start_connection ;;
  wait_for_event FullServerResponse ConnectionStarted ;;
  uid <- uuid4 ;;
  let base := base_request self a uid in
  session_id <- uuid4 ;;
  start_session (start_session_request a base) session_id ;;
  wait_for_event FullServerResponse SessionStarted ;;
  task_request (synthesis_request a base) session_id ;;
  finish_session session_id.

(** Lines 129-135: what the receive loop does with one message. *)
Definition receive_audio_body (audio_data : bytes) (msg : Message)
  : LoopCtl bytes bytes :=
  if bool_decide (type msg = FullServerResponse) then
    if bool_decide (event msg = Some SessionFinished)
    then Break audio_data
    else Continue audio_data
  else if bool_decide (type msg = AudioOnlyServer) then
    Continue (audio_data ++ payload msg)
  else if bool_decide (type msg = Error) then
    Throw (TTSConversionFailed msg)
  else Continue audio_data.

(** Lines 126-135: the receive loop, from an empty [bytearray]. *)
Definition receive_audio : M bytes := while_receive receive_audio_body [].

(** Lines 137-145: the check for audio, and the file. *)
Definition check_and_save (a : Args) (audio_data : bytes) : M unit :=
  match audio_data with
  | [] => raise NoAudioData
  | _ =>
      write_file (output_file a) audio_data ;;
      logger_info
        (LogAudioSaved (output_file a) (length audio_data) (voice_type a) (resource_id a))
  end.

(** Lines 73-145: the body of the [try]. *)
Definition steps_2_to_7 (self : BidirectionTTSClient) (a : Args) : M unit :=
  steps_2_to_5 self a ;;
  audio_data <- receive_audio ;;
  check_and_save a audio_data.

(** Lines 148-153: the [finally] block. *)
Definition cleanup : M unit :=
  finish_connection ;;
  wait_for_event FullServerResponse ConnectionFinished ;;
  ws_close ;;
  logger_info LogConnectionClosed.

(** Lines 42-153: [synthesize_to_file]. *)
Definition synthesize_to_file (self : BidirectionTTSClient) (a : Args) : M unit :=
  connect_id <- uuid4 ;;
  let headers := connect_headers self (resource_id a) connect_id in
  logger_info (LogConnecting (endpoint self) headers) ;;
  ws_connect (endpoint self) headers (max_size self) ;;
  logger_info LogConnected ;;
  try_finally (steps_2_to_7 self a) cleanup.

(** A call [client.synthesize_to_file(name=value, ...)]: the keywords that
    name a parameter are gathered in [a]; [extra] are the keywords of the
    call that name no parameter.  Python binds the arguments before it runs
    the body, and raises [TypeError] on the first keyword it cannot bind. *)
Definition call_synthesize_to_file (self : BidirectionTTSClient) (a : Args)
    (extra : list string) : M unit :=
  match extra with
  | [] => synthesize_to_file self a
  | name :: _ => raise (UnexpectedKeyword name)
  end.

(** Lines 155-161: [get_resource_id_for_voice]. *)
Definition get_resource_id_for_voice (voice_type : string) : string :=
  if String.prefix "S_" voice_type then "seed-icl-2.0" else "seed-tts-2.0".

(* ------------------------------------------------------------------ *)
(** *** Small runs *)

Definition fsr (e : EventType) : Message := mkMessage FullServerResponse (Some e) [].
Definition audio (p : bytes) : Message := mkMessage AudioOnlyServer None p.

Definition world0 (s : Server) : World := mkWorld 0 [s] (mkServer None [] []) ∅.

Definition client0 : BidirectionTTSClient := new_client "app" "token".
Definition args0 : Args := default_args "hello" "zh_female_x" "seed-tts-2.0" "out.mp3".

Definition abc_server : Server :=
  mkServer None []
    [ InMsg (fsr ConnectionStarted); InMsg (fsr SessionStarted);
      InMsg (audio [x41]); InMsg (audio [x42]); InMsg (audio [x43]);
      InMsg (fsr SessionFinished); InMsg (fsr ConnectionFinished) ].

(* ================================================================== *)
(** ** [process_text_to_voice.py]: the segment loop of [main] *)
(* ================================================================== *)

(** The prosody options of the command line ([parse_args]). *)
Record CliArgs := mkCliArgs {
  cli_speech_rate : PyNum;
  cli_loudness_rate : PyNum;
  cli_emotion : string;
  cli_emotion_scale : PyNum;
  cli_pitch_rate : PyNum;
}.

(** One parsed segment: [item["text"]] and [item["speaker"]]. *)
Record Item := mkItem {
  item_text : string;
  item_speaker : string;
}.

(** The values the loop hands to the client for one segment. *)
Record Prosody := mkProsody {
  p_speech_rate : PyNum;
  p_loudness_rate : PyNum;
  p_emotion : string;
  p_emotion_scale : PyNum;
  p_pitch_rate : PyNum;
}.

(** Lines 132-167: the per-voice table.  The third test repeats the first
    one, as in the source, and is never taken. *)
Definition prosody_for (cli : CliArgs) (voice_type : string) : Prosody :=
  if String.eqb voice_type "S_7ndFaTPI1" then
    mkProsody (PInt 0) (PInt 10) "neutral" (PInt 0) (PInt 0)
  else if String.eqb voice_type "zh_male_taocheng_uranus_bigtts" then
    mkProsody (PInt 0) (PInt 0) "neutral" (PInt 0) (PInt 5)
  else if String.eqb voice_type "S_7ndFaTPI1" then
    mkProsody (PInt 10) (PInt 0) "neutral" (PInt 0) (PInt 0)
  else if String.eqb voice_type "saturn_zh_female_tiaopigongzhu_tob" then
    mkProsody (PInt 0) (PInt 0) "neutral" (PInt 0) (PInt 4)
  else if String.eqb voice_type "S_vJMEaTPI1" then
    mkProsody (PInt 20) (PInt 0) "neutral" (PInt 0) (PInt 0)
  else
    mkProsody (cli_speech_rate cli) (cli_loudness_rate cli) (cli_emotion cli)
      (cli_emotion_scale cli) (cli_pitch_rate cli).

Fixpoint zeros (k : nat) : string :=
  match k with
  | O => ""
  | S k' => "0" +:+ zeros k'
  end.

(** [f"{i:03d}"]. *)
Definition pad3 (i : nat) : string :=
  let s := pretty i in zeros (3 - String.length s) +:+ s.

(** [os.path.join(d, name)] for a relative [name]. *)
Definition path_join (d name : string) : string :=
  if String.eqb d "" then name
  else if String.eqb (String.substring (String.length d - 1) 1 d) "/" then d +:+ name
  else d +:+ "/" +:+ name.

(** Lines 118-120: the file of segment [i]. *)
Definition segment_file (output_dir : string) (i : nat) (voice_type : string) : string :=
  path_join output_dir ("segment_" +:+ pad3 i +:+ "_" +:+ voice_type +:+ ".mp3").

(** Lines 113-117: the resource id of a segment, written out in the loop. *)
Definition segment_resource_id (voice_type : string) : string :=
  if negb (String.prefix "S_" voice_type) then "seed-tts-2.0" else "seed-icl-2.0".

(** Lines 168-186, and lines 132-149 of [process_more_file.py], which are
    the same: the [try] around the call for one segment.  When the call
    returns, the file joins [audio_files]; when it raises, the handler logs
    the error and the loop goes on to the next segment.  [call] is the call
    to the client with its arguments bound. *)
Definition try_segment (call : M unit) (n i : nat) (voice_type output_file : string)
    (audio_files : list string) : M (list string) :=
  try_except
    (logger_info (LogGenerating (i + 1) n voice_type) ;;
     call ;;
     ret (audio_files ++ [output_file]))
    (fun e =>
       logger_error (LogTtsFailed i e) ;;
       ret audio_files).

(** Lines 132-182: one segment of [process_text_to_voice.py] that is not on
    disk yet: the per-voice values, and the call, which passes [pitch_rate]
    besides the parameters of [synthesize_to_file]. *)
Definition generate_segment (self : BidirectionTTSClient) (cli : CliArgs)
    (output_dir : string) (n i : nat) (item : Item) (audio_files : list string)
  : M (list string) :=
  let voice_type := item_speaker item in
  let output_file := segment_file output_dir i voice_type in
  let p := prosody_for cli voice_type in
  try_segment
    (call_synthesize_to_file self
       (mkArgs (item_text item) voice_type (segment_resource_id voice_type)
          output_file "mp3" (p_speech_rate p) (p_loudness_rate p) (p_emotion p)
          (p_emotion_scale p))
       ["pitch_rate"])
    n i voice_type output_file audio_files.

(** Lines 132-149 of [process_more_file.py]: the same [try] around a call
    that passes the parameters of [synthesize_to_file] and nothing else. *)
Definition generate_segment_more_file (self : BidirectionTTSClient) (a : Args)
    (n i : nat) (audio_files : list string) : M (list string) :=
  try_segment (call_synthesize_to_file self a []) n i (voice_type a) (output_file a)
    audio_files.

(** Lines 109-186: [for i, item in enumerate(nlp_texts)], from index [i] on;
    [n] is [len(nlp_texts)].  The result is [audio_files]. *)
Fixpoint segments_loop (self : BidirectionTTSClient) (cli : CliArgs)
    (output_dir : string) (n i : nat) (items : list Item)
    (audio_files : list string) : M (list string) :=
  match items with
  | [] => ret audio_files
  | item :: rest =>
      let output_file := segment_file output_dir i (item_speaker item) in
      present <- path_exists output_file ;;
      if (present : bool) then
        segments_loop self cli output_dir n (S i) rest (audio_files ++ [output_file])
      else
        audio_files' <- generate_segment self cli output_dir n i item audio_files ;;
        segments_loop self cli output_dir n (S i) rest audio_files'
  end.

(* ------------------------------------------------------------------ *)
(** *** Properties of computations *)

Definition obs_all {A} (P : Obs -> Prop) (m : M A) : Prop :=
  forall w, Forall P (r_obs (m w)).

Definition preserves {A} (R : World -> World -> Prop) (m : M A) : Prop :=
  forall w, R w (r_world (m w)).

(** The file system is left as it was. *)
Definition same_fs (w w' : World) : Prop := fs w' = fs w.

(** The uuid supply only moves forward. *)
Definition ctr_le (w w' : World) : Prop := uuid_ctr w <= uuid_ctr w'.

(** The frame an observation hands to the transport, delivered or not. *)
Definition frame_of (o : Obs) : option Frame :=
  match o with
  | OSent f | OSendFailed f => Some f
  | _ => None
  end.

(** The frames of a run, in the order in which they were sent. *)
Definition frames (obs : list Obs) : list Frame := omap frame_of obs.

(** A [StartSession] frame carries the start-session request of the call. *)
Definition start_session_ok (self : BidirectionTTSClient) (a : Args) (o : Obs) : Prop :=
  forall f, frame_of o = Some f -> f_event f = StartSession ->
    exists uid, f_payload f = start_session_request a (base_request self a uid).

(** The world of a call right after the transport was opened on server [s]:
    one uuid was drawn for the connect id. *)
Definition opened (w : World) (s : Server) (rest : list Server) : World :=
  mkWorld (S (uuid_ctr w)) rest s (fs w).

(** What a call observes up to the attempt to open the transport. *)
Definition opening_obs (self : BidirectionTTSClient) (a : Args) (w : World) : list Obs :=
  let headers := connect_headers self (resource_id a) (uuid_str (uuid_ctr w)) in
  [ OLog (LogConnecting (endpoint self) headers);
    OConnect (endpoint self) headers (max_size self) ].

(** [headers["X-Api-Connect-Id"]] of a header list. *)
Fixpoint header_get (k : string) (hs : list (string * string)) : option string :=
  match hs with
  | [] => None
  | (k', v) :: rest => if String.eqb k k' then Some v else header_get k rest
  end.

(** The connect ids presented by the openings of a run. *)
Definition connect_id_of (o : Obs) : option string :=
  match o with
  | OConnect _ hs _ => header_get "X-Api-Connect-Id" hs
  | _ => None
  end.

Definition connect_ids (obs : list Obs) : list string := omap connect_id_of obs.

Definition is_connect (o : Obs) : bool :=
  match o with
  | OConnect _ _ _ => true
  | _ => false
  end.

(** The frame of [finish_connection]. *)
Definition finish_frame : Frame := mkFrame FinishConnection None (JObj []).

(** An attempt to send [FinishConnection], delivered or not. *)
Definition is_finish_attempt (o : Obs) : bool :=
  match frame_of o with
  | Some f => bool_decide (f_event f = FinishConnection)
  | None => false
  end.

(** A [FinishConnection] frame that the transport took. *)
Definition is_finish_sent (o : Obs) : bool :=
  match o with
  | OSent f => bool_decide (f_event f = FinishConnection)
  | _ => false
  end.

Definition is_closed (o : Obs) : bool :=
  match o with
  | OClosed => true
  | _ => false
  end.

(** How many observations of a run satisfy [p]. *)
Fixpoint count (p : Obs -> bool) (obs : list Obs) : nat :=
  match obs with
  | [] => 0
  | o :: rest => (if p o then 1 else 0) + count p rest
  end.

(** The message a wait for [(msg_type, event_type)] stops at. *)
Definition carries (msg_type : MsgType) (event_type : EventType) (m : Message) : Prop :=
  type m = msg_type /\ event m = Some event_type.

(** A server that accepts the opening and ends the stream without a word. *)
Definition silent_server : Server := mkServer None [] [].

(** The same, seen from a transport that refuses to send once the stream
    has ended: the first frame goes out, every later send fails. *)
Definition dropping_server : Server :=
  mkServer None [None; Some ConnectionClosed; Some ConnectionClosed] [].

(** The log lines of a run. *)
Definition log_of (o : Obs) : option LogEntry :=
  match o with
  | OLog l => Some l
  | _ => None
  end.

Definition logs (obs : list Obs) : list LogEntry := omap log_of obs.

(** What the body of the [try] may observe: messages coming in, frames other
    than [FinishConnection] going out, and the line that reports the saved
    file; never the closing of the transport. *)
Definition body_obs (o : Obs) : Prop :=
  is_finish_attempt o = false /\ is_closed o = false /\ is_connect o = false.

(** Steps 2 to 5 and the receive loop log nothing. *)
Definition quiet_obs (o : Obs) : Prop := log_of o = None.

(** A server that starts the connection and the session, rejects the request
    with an [Error] frame, and then goes away. *)
Definition error_frame : Message := mkMessage Error None [x62; x6f; x6f; x6d].

Definition rejecting_server : Server :=
  mkServer None []
    [ InMsg (fsr ConnectionStarted); InMsg (fsr SessionStarted); InMsg error_frame ].

(** The outcome of steps 2 to 7 in a call made in world [w]; [None] when the
    transport does not open and the steps are never reached. *)
Definition body_outcome (self : BidirectionTTSClient) (a : Args) (w : World)
  : option (Outcome unit) :=
  match pending w with
  | s :: rest =>
      match accept s with
      | None => Some (r_out (steps_2_to_7 self a (opened w s rest)))
      | Some _ => None
      end
  | [] => None
  end.

(** A server that delivers one audio frame, reports the session finished, and
    goes away before it acknowledges the end of the connection. *)
Definition vanishing_server : Server :=
  mkServer None []
    [ InMsg (fsr ConnectionStarted); InMsg (fsr SessionStarted);
      InMsg (audio [x41]); InMsg (fsr SessionFinished) ].

(** A message on which the receive loop goes round again: not the
    [SessionFinished] response, and not of type [Error]. *)
Definition loop_continues (m : Message) : bool :=
  negb (bool_decide (type m = FullServerResponse /\ event m = Some SessionFinished))
  && negb (bool_decide (type m = Error)).

(** The audio of a sequence of messages: the payloads of its
    [AudioOnlyServer] messages, in arrival order. *)
Fixpoint collected (msgs : list Message) : bytes :=
  match msgs with
  | [] => []
  | m :: rest =>
      (if bool_decide (type m = AudioOnlyServer) then payload m else []) ++ collected rest
  end.

(** A world whose connection has [inb] still to come. *)
Definition receiving (inb : list Inbound) : World :=
  mkWorld 0 [] (mkServer None [] inb) ∅.

(** The server of the ABC scenario as claim C5 gives it, which ends with
    [SessionFinished]. *)
Definition abc_server_short : Server :=
  mkServer None []
    [ InMsg (fsr ConnectionStarted); InMsg (fsr SessionStarted);
      InMsg (audio [x41]); InMsg (audio [x42]); InMsg (audio [x43]);
      InMsg (fsr SessionFinished) ].

(** The events of the frames of a run, in order. *)
Definition events {A} (r : Run A) : list EventType := map f_event (frames (r_obs r)).

(** A computation that hands frames with the events [l] to the transport, in
    that order, all of them when it returns and the first of them when it
    raises. *)
Definition emits {A} (l : list EventType) (m : M A) : Prop :=
  forall w,
    match r_out (m w) with
    | Returned _ => events (m w) = l
    | Raised _ _ => events (m w) `prefix_of` l
    end.

(** A server on which the request is rejected and the connection is reset
    before [FinishConnection] can be sent. *)
Definition resetting_server : Server :=
  mkServer None [None; None; None; None; Some (NetError "connection reset")]
    [ InMsg (fsr ConnectionStarted); InMsg (fsr SessionStarted); InMsg error_frame;
      InMsg (fsr ConnectionFinished) ].

(** A server that reports the session finished without any audio, and goes
    away. *)
Definition mute_server : Server :=
  mkServer None []
    [ InMsg (fsr ConnectionStarted); InMsg (fsr SessionStarted);
      InMsg (fsr SessionFinished) ].

(** The same, with the end of the connection acknowledged. *)
Definition mute_polite_server : Server :=
  mkServer None []
    [ InMsg (fsr ConnectionStarted); InMsg (fsr SessionStarted);
      InMsg (fsr SessionFinished); InMsg (fsr ConnectionFinished) ].

(** A server that rejects the request with an [Error] frame and then
    acknowledges the end of the connection. *)
Definition rejecting_polite_server : Server :=
  mkServer None []
    [ InMsg (fsr ConnectionStarted); InMsg (fsr SessionStarted); InMsg error_frame;
      InMsg (fsr ConnectionFinished) ].

(** A call with some prosody set. *)
Definition args1 : Args :=
  mkArgs "hello" "zh_female_x" "seed-tts-2.0" "out.mp3" "mp3"
    (PInt 10) (PInt 0) "happy" (PFloat 0).

(* ------------------------------------------------------------------ *)
(** *** A server that follows the protocol *)

(** A message a wait for [(msg_type, event_type)] passes over. *)
Definition misses (msg_type : MsgType) (event_type : EventType) (m : Message) : bool :=
  negb (bool_decide (type m = msg_type /\ event m = Some event_type)).

(** The error the next send on the connection meets, if it meets one. *)
Definition next_send_error (c : Server) : option Exn :=
  match sends c with
  | Some e :: _ => Some e
  | _ => None
  end.

(** The error a receive raises at this point of the inbound stream: the
    stream has ended, or the transport fails. *)
Definition stream_error (inb : list Inbound) : option Exn :=
  match inb with
  | [] => Some ConnectionClosed
  | InRaise e :: _ => Some e
  | InMsg _ :: _ => None
  end.

(** The exception in flight when a [finally] block is entered, which becomes
    the context of an exception raised in the block. *)
Definition in_flight {A} (out : Outcome A) : option Exn :=
  match out with
  | Returned _ => None
  | Raised e _ => Some e
  end.

(** What a server that follows the protocol sends, with whatever else it
    sends in between: the start of the connection, the start of the session,
    the messages of the session up to its end, and the end of the
    connection. *)
Definition protocol_script (noise1 : list Message) (cs : Message)
    (noise2 : list Message) (ss : Message) (session : list Message) (sf : Message)
    (noise3 : list Message) (cf : Message) (rest : list Inbound) : list Inbound :=
  map InMsg noise1 ++ InMsg cs
  :: map InMsg noise2 ++ InMsg ss
  :: map InMsg session ++ InMsg sf
  :: map InMsg noise3 ++ InMsg cf :: rest.

(** A [TaskRequest] frame carries the synthesis request of the call. *)
Definition task_request_ok (self : BidirectionTTSClient) (a : Args) (o : Obs) : Prop :=
  forall f, frame_of o = Some f -> f_event f = TaskRequest ->
    exists uid, f_payload f = synthesis_request a (base_request self a uid).

(** What a call observes, from its first log line to its last, when the
    server follows the protocol: [ctr] is the state of the uuid supply when
    the call starts. *)
Definition protocol_trace (self : BidirectionTTSClient) (a : Args) (ctr : nat)
    (noise1 : list Message) (cs : Message) (noise2 : list Message) (ss : Message)
    (session : list Message) (sf : Message) (noise3 : list Message) (cf : Message)
  : list Obs :=
  let headers := connect_headers self (resource_id a) (uuid_str ctr) in
  let base := base_request self a (uuid_str (S ctr)) in
  let session_id := uuid_str (S (S ctr)) in
  [ OLog (LogConnecting (endpoint self) headers);
    OConnect (endpoint self) headers (max_size self);
    OLog LogConnected;
    OSent (mkFrame StartConnection None (JObj [])) ]
  ++ map ORecv (noise1 ++ [cs])
  ++ [ OSent (mkFrame StartSession (Some session_id) (start_session_request a base)) ]
  ++ map ORecv (noise2 ++ [ss])
  ++ [ OSent (mkFrame TaskRequest (Some session_id) (synthesis_request a base));
       OSent (mkFrame FinishSession (Some session_id) (JObj [])) ]
  ++ map ORecv (session ++ [sf])
  ++ [ OLog (LogAudioSaved (output_file a) (length (collected session))
               (voice_type a) (resource_id a));
       OSent finish_frame ]
  ++ map ORecv (noise3 ++ [cf])
  ++ [ OClosed; OLog LogConnectionClosed ].

(* ------------------------------------------------------------------ *)
(** *** What the segment loop of [main] leaves behind *)

(** The segment files of [items], numbered from [i], that are among
    [files], in order. *)
Fixpoint segments_on_disk (files : gmap string bytes) (output_dir : string) (i : nat)
    (items : list Item) : list string :=
  match items with
  | [] => []
  | item :: rest =>
      let p := segment_file output_dir i (item_speaker item) in
      (if bool_decide (is_Some (files !! p)) then [p] else [])
      ++ segments_on_disk files output_dir (S i) rest
  end.

(** The two log lines of each segment of [items] that is not among
    [files]: the announcement, and the error of the call. *)
Fixpoint segment_failures (files : gmap string bytes) (output_dir : string) (n i : nat)
    (items : list Item) : list Obs :=
  match items with
  | [] => []
  | item :: rest =>
      let p := segment_file output_dir i (item_speaker item) in
      (if bool_decide (is_Some (files !! p)) then []
       else [ OLog (LogGenerating (i + 1) n (item_speaker item));
              OLog (LogTtsFailed i (UnexpectedKeyword "pitch_rate")) ])
      ++ segment_failures files output_dir n (S i) rest
  end.

(* ================================================================== *)
(** ** [utils.py]: class [ToNlpTexts], the voices of the speakers *)
(* ================================================================== *)

(** The exceptions of the helpers outside the client. *)
Inductive PyError :=
| ZeroDivisionError
| IndexError.

(** The two attributes of a [ToNlpTexts] object: the voice of each known
    speaker, and the voices handed to new speakers in turn. *)
Record ToNlpTexts := mkToNlpTexts {
  voice_mapping : gmap string string;
  default_voices : list string;
}.

(** Lines 28-39: [__init__]. *)
Definition ToNlpTexts_init : ToNlpTexts :=
  mkToNlpTexts
    {[ "不白吃" := "S_r7eMaTPI1"; "小星" := "S_1GQLaTPI1" ]}
    [ "zh_female_mizaitongxue_v2_saturn_bigtts";
      "zh_male_dayixiansheng_v2_saturn_bigtts" ].

(** Lines 41-51: [get_voice_for_speaker], with the object after the call.  A
    known speaker keeps its voice.  A new speaker gets the default voice at
    index [len(voice_mapping) % len(default_voices)], which is recorded; the
    remainder raises [ZeroDivisionError] when there is no default voice. *)
Definition get_voice_for_speaker (self : ToNlpTexts) (speaker : string)
  : PyError + (string * ToNlpTexts) :=
  match voice_mapping self !! speaker with
  | Some voice_id => inr (voice_id, self)
  | None =>
      match length (default_voices self) with
      | O => inl ZeroDivisionError
      | S _ =>
          let voice_index := size (voice_mapping self) mod length (default_voices self) in
          match default_voices self !! voice_index with
          | Some voice_id =>
              inr (voice_id,
                   mkToNlpTexts (<[speaker := voice_id]> (voice_mapping self))
                     (default_voices self))
          | None => inl IndexError
          end
      end
  end.

(* ================================================================== *)
(** ** [utils.py]: [simple_merge_audio_files] *)
(* ================================================================== *)

(** A path that exists, as the merge meets it: a regular file that can be
    read, or a path whose [open(path, "rb")] or [read()] raises (a
    directory, a file without read permission). *)
Inductive Node :=
| Regular (data : bytes)
| Unreadable.

(** What the merge gets from an input. *)
Inductive ReadResult :=
| Missing                 (* [os.path.exists] is false: the input is skipped *)
| Data (data : bytes)     (* the contents read *)
| ReadFails.              (* the open or the read raises *)

(** The contents of the regular file at [path], if there is one. *)
Definition contents (files : gmap string Node) (path : string) : option bytes :=
  match files !! path with
  | Some (Regular data) => Some data
  | _ => None
  end.

(** What the merge gets from [path] while [output_file] is open for writing
    and [written] has been handed to it.  The output file itself exists from
    the moment it is opened, and a read of it sees the part of [written] that
    has reached the disk, which is for the buffering to decide: [flushed]
    gives its length. *)
Definition read_during_merge (flushed : bytes -> nat) (files : gmap string Node)
    (output_file : string) (written : bytes) (path : string) : ReadResult :=
  if bool_decide (path = output_file) then Data (take (flushed written) written)
  else
    match files !! path with
    | None => Missing
    | Some (Regular data) => Data data
    | Some Unreadable => ReadFails
    end.

(** Lines 316-322: the loop over [audio_files], with what has been written
    so far.  An input that does not exist is skipped; an input that cannot
    be read raises, which ends the loop.  The result is what was written and
    whether the loop ran to its end. *)
Fixpoint merge_into (flushed : bytes -> nat) (files : gmap string Node)
    (output_file : string) (audio_files : list string) (written : bytes)
  : bytes * bool :=
  match audio_files with
  | [] => (written, true)
  | audio_file :: rest =>
      match read_during_merge flushed files output_file written audio_file with
      | Data data => merge_into flushed files output_file rest (written ++ data)
      | Missing => merge_into flushed files output_file rest written
      | ReadFails => (written, false)
      end
  end.

(** Lines 310-329: [simple_merge_audio_files]: the result, and the file
    system afterwards.  [can_write path] tells whether [open(path, "wb")]
    succeeds (the directory exists and can be written, the path is no
    directory); when it does not, the exception is caught before anything is
    written.  When an input raises, the [with] block closes the output file
    with what was written up to there, and the handler returns [False].
    Writes to the open output file are taken to succeed. *)
Definition simple_merge_audio_files (flushed : bytes -> nat) (can_write : string -> bool)
    (files : gmap string Node) (audio_files : list string) (output_file : string)
  : bool * gmap string Node :=
  if can_write output_file then
    let '(written, completed) := merge_into flushed files output_file audio_files [] in
    (completed, <[output_file := Regular written]> files)
  else (false, files).

(** No input exists without being readable. *)
Definition all_readable (files : gmap string Node) (audio_files : list string) : Prop :=
  Forall (fun p => files !! p <> Some Unreadable) audio_files.

(* ================================================================== *)
(** ** [webui.py]: [fill_defaults] *)
(* ================================================================== *)

(** Lines 36-43: the default voice of the known roles. *)
Definition role_defaults : gmap string string :=
  {[ "不白吃" := "S_fN2KaTPI1";
     "食客A" := "S_vNQFaTPI1";
     "食客B" := "S_hUnLaTPI1";
     "武则天" := "S_vJMEaTPI1";
     "上官婉儿" := "zh_female_meilinvyou_saturn_bigtts";
     "侍卫" := "zh_male_taocheng_uranus_bigtts" ]}.

(** Lines 46-48: one row.  [row[0]] raises [IndexError] on an empty row; a
    row with one column has the empty voice; [vt or defaults.get(name, vt)]
    keeps a voice that is not empty. *)
Definition fill_row (row : list string) : PyError + list string :=
  match row with
  | [] => inl IndexError
  | name :: columns =>
      let vt := match columns with v :: _ => v | [] => "" end in
      inr [ name;
            if String.eqb vt "" then default vt (role_defaults !! name) else vt ]
  end.

Fixpoint fill_rows (rows : list (list string)) : PyError + list (list string) :=
  match rows with
  | [] => inr []
  | row :: rest =>
      match fill_row row with
      | inl e => inl e
      | inr row' =>
          match fill_rows rest with
          | inl e => inl e
          | inr out => inr (row' :: out)
          end
      end
  end.

(** Lines 35-49: [fill_defaults]; [None] and the empty table give the empty
    table ([role_table or []]). *)
Definition fill_defaults (role_table : option (list (list string)))
  : PyError + list (list string) :=
  fill_rows (default [] role_table).

(* ================================================================== *)
(** ** [utils.py]: [ToNlpTexts.clean_text_markers] *)
(* ================================================================== *)

(** A Python [str], as the sequence of its code points. *)
Definition pystr := list N.

Definition lparen : N := 0x28.          (* ( *)
Definition rparen : N := 0x29.          (* ) *)
Definition fw_lparen : N := 0xFF08.     (* the full-width opening parenthesis *)
Definition fw_rparen : N := 0xFF09.     (* the full-width closing parenthesis *)
Definition lbracket : N := 0x3010.      (* the opening lenticular bracket *)
Definition rbracket : N := 0x3011.      (* the closing lenticular bracket *)

(** The two characters of the word for "scene" in line 59. *)
Definition scene : pystr := [0x573A; 0x666F]%N.

(** [text] up to the first [c], and what follows that [c]. *)
Fixpoint split_at_first (c : N) (text : pystr) : option (pystr * pystr) :=
  match text with
  | [] => None
  | x :: rest =>
      if N.eqb x c then Some ([], rest)
      else match split_at_first c rest with
           | Some (inside, after) => Some (x :: inside, after)
           | None => None
           end
  end.

Fixpoint starts_with (word text : pystr) : bool :=
  match word, text with
  | [], _ => true
  | _ :: _, [] => false
  | a :: word', x :: text' => N.eqb a x && starts_with word' text'
  end.

(** [word in text]. *)
Fixpoint contains (word text : pystr) : bool :=
  starts_with word text
  || match text with
     | [] => false
     | _ :: text' => contains word text'
     end.

(** A match, at the very start of [text], of a pattern of the shape
    [o [^c]* c] (an opening [o], characters other than [c], the closing [c])
    whose inside is accepted by [sel]: what follows the match.  No part of
    the pattern before the closing character can take a [c], so the match
    ends at the first [c] after the opening. *)
Definition group_at (o c : N) (sel : pystr -> bool) (text : pystr) : option pystr :=
  match text with
  | [] => None
  | x :: rest =>
      if N.eqb x o then
        match split_at_first c rest with
        | Some (inside, after) => if sel inside then Some after else None
        | None => None
        end
      else None
  end.

Definition inspect {A} (a : A) : {b : A | a = b} := exist _ a eq_refl.

(** [re.sub(pattern, '', text)] for such a pattern: from left to right, a
    match is dropped and the scan goes on after it; where there is no match
    the character is kept. *)
Equations? re_sub_group (o c : N) (sel : pystr -> bool) (text : pystr) : pystr
  by wf (length text) lt :=
  re_sub_group o c sel [] := [];
  re_sub_group o c sel (x :: rest) with inspect (group_at o c sel (x :: rest)) := {
    | exist _ (Some after) E := re_sub_group o c sel after;
    | exist _ None E := x :: re_sub_group o c sel rest }.
Proof.
  cbn in E. destruct (N.eqb x o); [|discriminate].
  destruct (split_at_first c rest) as [[inside after']|] eqn:Es; [|discriminate].
  destruct (sel inside); [|discriminate]. injection E as <-.
  clear -Es. revert inside Es.
  induction rest as [|y rest IH]; intros inside Es; cbn in Es; [discriminate|].
  destruct (N.eqb y c).
  - injection Es as _ <-. cbn. lia.
  - destruct (split_at_first c rest) as [[i a]|] eqn:E'; [|discriminate].
    injection Es as _ <-. specialize (IH _ eq_refl). cbn in *. lia.
Qed.

(** [str.lstrip()], [str.rstrip()] and [str.strip()]; [isspace] is Python's
    test for a whitespace character, which comes from the Unicode database
    and not from the sources. *)
Fixpoint lstrip (isspace : N -> bool) (text : pystr) : pystr :=
  match text with
  | [] => []
  | x :: rest => if isspace x then lstrip isspace rest else text
  end.

Definition rstrip (isspace : N -> bool) (text : pystr) : pystr :=
  reverse (lstrip isspace (reverse text)).

Definition strip (isspace : N -> bool) (text : pystr) : pystr :=
  rstrip isspace (lstrip isspace text).

(** Lines 53-66: [clean_text_markers]: the bracketed scene markers, the
    full-width parentheses and the ASCII parentheses go, in this order, and
    the result is stripped. *)
Definition clean_text_markers (isspace : N -> bool) (text : pystr) : pystr :=
  let text := re_sub_group lbracket rbracket (contains scene) text in
  let text := re_sub_group fw_lparen fw_rparen (fun _ => true) text in
  let text := re_sub_group lparen rparen (fun _ => true) text in
  strip isspace text.

(** ASCII whitespace, for examples. *)
Definition ascii_space (x : N) : bool :=
  N.eqb x 0x20 || (N.leb 0x09 x && N.leb x 0x0D).

(* ================================================================== *)
(** ** [process_more_file.py]: the segment loop of [process_single_file] *)
(* ================================================================== *)

(** What the loop of [process_single_file] observes: what the client
    observes during a call, and the two log lines of the segments that are
    passed over. *)
Inductive DriverObs :=
| DClient (o : Obs)
| DSkippedInvalid (i : nat)      (* logger.warning: no speaker or empty text *)
| DSkippedExisting (i : nat).    (* logger.info: the file exists *)

(** The run of the loop: [inl name] is the [AttributeError] on attribute
    [name] of [args] leaving the loop; [inr audio_files] is the loop run to
    its end. *)
Record DriverRun := mkDriverRun {
  d_obs : list DriverObs;
  d_world : World;
  d_result : string + list string;
}.

Definition d_prepend (obs : list DriverObs) (r : DriverRun) : DriverRun :=
  mkDriverRun (obs ++ d_obs r) (d_world r) (d_result r).

(** Line 91: [not text.strip()]: the text is empty or all whitespace.  A
    character of the text is a character of the Rocq string, and [isspace]
    is Python's test on one character. *)
Definition is_blank (isspace : Ascii.ascii -> bool) (text : string) : bool :=
  forallb isspace (list_ascii_of_string text).

(** Line 96: [safe_voice]: the characters of the voice that are
    alphanumeric ([isalnum], Python's test on one character) or one of
    [._-]. *)
Definition safe_voice_of (isalnum : Ascii.ascii -> bool) (voice_type : string) : string :=
  string_of_list_ascii
    (List.filter
       (fun c => isalnum c || existsb (Ascii.eqb c) (list_ascii_of_string "._-"))
       (list_ascii_of_string voice_type)).

(** Lines 109-128: the values of the four hard-coded voices.  For any other
    voice the loop reads [args.speech_rate]; [args] is the namespace that
    [parse_args] (lines 226-245) builds, which has the attributes
    [input_dir] and [output_dir] only, so the read raises
    [AttributeError]. *)
Definition prosody_more_file (voice_type : string)
  : string + (PyNum * PyNum * string * PyNum) :=
  if String.eqb voice_type "S_7ndFaTPI1" then
    inr (PInt 0, PInt 20, "neutral", PInt 0)
  else if String.eqb voice_type "S_vNQFaTPI1" || String.eqb voice_type "S_hUnLaTPI1" then
    inr (PInt 30, PInt 0, "neutral", PInt 0)
  else if String.eqb voice_type "S_fN2KaTPI1" then
    inr (PInt (-10), PInt 0, "neutral", PInt 0)
  else inl "speech_rate".

(** Lines 88-149: [for i, item in enumerate(nlp_texts)], from index [i] on,
    with [audio_files] so far. *)
Fixpoint single_file_loop (isspace isalnum : Ascii.ascii -> bool)
    (self : BidirectionTTSClient) (output_dir : string) (n i : nat)
    (items : list Item) (audio_files : list string) (w : World) : DriverRun :=
  match items with
  | [] => mkDriverRun [] w (inr audio_files)
  | item :: rest =>
      let text := item_text item in
      let voice_type := item_speaker item in
      if String.eqb voice_type "" || is_blank isspace text then
        d_prepend [DSkippedInvalid i]
          (single_file_loop isspace isalnum self output_dir n (S i) rest audio_files w)
      else
        let resource_id :=
          if String.prefix "S_" voice_type then "seed-icl-2.0" else "seed-tts-2.0" in
        let output_file := segment_file output_dir i (safe_voice_of isalnum voice_type) in
        if bool_decide (is_Some (fs w !! output_file)) then
          d_prepend [DSkippedExisting i]
            (single_file_loop isspace isalnum self output_dir n (S i) rest
               (audio_files ++ [output_file]) w)
        else
          match prosody_more_file voice_type with
          | inl name => mkDriverRun [] w (inl name)
          | inr (speech_rate, loudness_rate, emotion, emotion_scale) =>
              let r :=
                generate_segment_more_file self
                  (mkArgs text voice_type resource_id output_file "mp3"
                     speech_rate loudness_rate emotion emotion_scale)
                  n i audio_files w in
              let audio_files' :=
                match r_out r with
                | Returned files => files
                | Raised _ _ => audio_files
                end in
              d_prepend (map DClient (r_obs r))
                (single_file_loop isspace isalnum self output_dir n (S i) rest
                   audio_files' (r_world r))
          end
  end.

(** A segment at which the loop breaks off: it has a speaker and a text, its
    file is not among [files], and its voice is none of the four with
    hard-coded values. *)
Definition breaks_loop (isspace isalnum : Ascii.ascii -> bool) (output_dir : string)
    (i : nat) (item : Item) (files : gmap string bytes) : Prop :=
  item_speaker item <> "" /\
  is_blank isspace (item_text item) = false /\
  files !! segment_file output_dir i (safe_voice_of isalnum (item_speaker item)) = None /\
  prosody_more_file (item_speaker item) = inl "speech_rate".

(** The path names a file. *)
Definition on_disk (files : gmap string bytes) (path : string) : Prop :=
  is_Some (files !! path).

(** The voice is one of the four with hard-coded values (lines 109-123). *)
Definition hard_coded_voice (voice_type : string) : bool :=
  String.eqb voice_type "S_7ndFaTPI1" || String.eqb voice_type "S_vNQFaTPI1"
  || String.eqb voice_type "S_hUnLaTPI1" || String.eqb voice_type "S_fN2KaTPI1".

(* ================================================================== *)
(** ** Reasoning about runs *)
(* ================================================================== *)

Lemma bind_returned {A B} (m : M A) (k : A -> M B) w a :
  r_out (m w) = Returned a ->
  bind m k w =
  mkRun (r_obs (m w) ++ r_obs (k a (r_world (m w))))
    (r_world (k a (r_world (m w)))) (r_out (k a (r_world (m w)))).
Proof. intros H. unfold bind. now rewrite H. Qed.

Lemma bind_raised {A B} (m : M A) (k : A -> M B) w e c :
  r_out (m w) = Raised e c ->
  bind m k w = mkRun (r_obs (m w)) (r_world (m w)) (Raised e c).
Proof. intros H. unfold bind. now rewrite H. Qed.

(** *** Every observation of a computation satisfies [P] *)

Section ObsAll.
Context (P : Obs -> Prop).

Lemma obs_all_ret {A} (a : A) : obs_all P (ret a).
Proof. intros w. constructor. Qed.

Lemma obs_all_raise {A} e : obs_all P (@raise A e).
Proof. intros w. constructor. Qed.

Lemma obs_all_bind {A B} (m : M A) (k : A -> M B) :
  obs_all P m -> (forall a, obs_all P (k a)) -> obs_all P (bind m k).
Proof.
  intros Hm Hk w. unfold bind.
  destruct (r_out (m w)) as [a|e c]; simpl.
  - apply Forall_app. split; [apply Hm | apply Hk].
  - apply Hm.
Qed.

Lemma obs_all_emit o : P o -> obs_all P (emit o).
Proof. intros H w. simpl. repeat constructor. exact H. Qed.

Lemma obs_all_uuid4 : obs_all P uuid4.
Proof. intros w. constructor. Qed.

Lemma obs_all_write_file path data : obs_all P (write_file path data).
Proof. intros w. constructor. Qed.

Lemma obs_all_path_exists path : obs_all P (path_exists path).
Proof. intros w. constructor. Qed.

Lemma obs_all_ws_send f : P (OSent f) -> P (OSendFailed f) -> obs_all P (ws_send f).
Proof.
  intros H1 H2 w. unfold ws_send.
  destruct (sends (conn w)) as [|[e|] rest]; simpl; repeat constructor; assumption.
Qed.

Lemma obs_all_ws_connect ep hs ms : P (OConnect ep hs ms) -> obs_all P (ws_connect ep hs ms).
Proof.
  intros H w. unfold ws_connect.
  destruct (pending w) as [|s rest]; [|destruct (accept s)]; simpl;
    repeat constructor; assumption.
Qed.

Lemma while_receive_from_obs {S A} (body : S -> Message -> LoopCtl S A) inb :
  (forall m, P (ORecv m)) ->
  forall s, Forall P (while_receive_from body s inb).1.1.
Proof.
  intros HP. induction inb as [|[m|e] rest IH]; intros s; simpl.
  - constructor.
  - destruct (body s m) as [s'|a|e].
    + specialize (IH s').
      destruct (while_receive_from body s' rest) as [[o l] out]; simpl in *.
      constructor; [apply HP | exact IH].
    + simpl. repeat constructor. apply HP.
    + simpl. repeat constructor. apply HP.
  - constructor.
Qed.

Lemma obs_all_while_receive {S A} (body : S -> Message -> LoopCtl S A) s :
  (forall m, P (ORecv m)) -> obs_all P (while_receive body s).
Proof.
  intros HP w. unfold while_receive.
  pose proof (while_receive_from_obs body (inbound (conn w)) HP s) as H.
  destruct (while_receive_from body s (inbound (conn w))) as [[o l] out].
  exact H.
Qed.

Lemma obs_all_try_finally {A} (body : M A) fin :
  obs_all P body -> obs_all P fin -> obs_all P (try_finally body fin).
Proof.
  intros Hb Hf w. unfold try_finally. simpl.
  apply Forall_app. split; [apply Hb | apply Hf].
Qed.

Lemma obs_all_try_except {A} (body : M A) handler :
  obs_all P body -> (forall e, obs_all P (handler e)) ->
  obs_all P (try_except body handler).
Proof.
  intros Hb Hh w. unfold try_except.
  destruct (r_out (body w)) as [a|e c] eqn:E; simpl.
  - apply Hb.
  - apply Forall_app. split; [apply Hb | apply Hh].
Qed.
End ObsAll.

(** *** A relation between the worlds before and after *)

Section Preserves.
Context (R : World -> World -> Prop).
Context (R_refl : forall w, R w w).
Context (R_trans : forall w1 w2 w3, R w1 w2 -> R w2 w3 -> R w1 w3).
Context (R_conn : forall w c, R w (set_conn c w)).

Lemma preserves_ret {A} (a : A) : preserves R (ret a).
Proof. intros w. apply R_refl. Qed.

Lemma preserves_raise {A} e : preserves R (@raise A e).
Proof. intros w. apply R_refl. Qed.

Lemma preserves_emit o : preserves R (emit o).
Proof. intros w. apply R_refl. Qed.

Lemma preserves_bind {A B} (m : M A) (k : A -> M B) :
  preserves R m -> (forall a, preserves R (k a)) -> preserves R (bind m k).
Proof.
  intros Hm Hk w. unfold bind.
  destruct (r_out (m w)) as [a|e c]; simpl.
  - eapply R_trans; [apply Hm | apply Hk].
  - apply Hm.
Qed.

Lemma preserves_ws_send f : preserves R (ws_send f).
Proof.
  intros w. unfold ws_send.
  destruct (sends (conn w)) as [|[e|] rest]; simpl; auto.
Qed.

Lemma preserves_while_receive {S A} (body : S -> Message -> LoopCtl S A) s :
  preserves R (while_receive body s).
Proof.
  intros w. unfold while_receive.
  destruct (while_receive_from body s (inbound (conn w))) as [[o l] out]. simpl.
  apply R_conn.
Qed.

Lemma preserves_try_finally {A} (body : M A) fin :
  preserves R body -> preserves R fin -> preserves R (try_finally body fin).
Proof.
  intros Hb Hf w. unfold try_finally. simpl.
  eapply R_trans; [apply Hb | apply Hf].
Qed.
End Preserves.

Lemma same_fs_refl w : same_fs w w.
Proof. reflexivity. Qed.

Lemma same_fs_trans w1 w2 w3 : same_fs w1 w2 -> same_fs w2 w3 -> same_fs w1 w3.
Proof. unfold same_fs. congruence. Qed.

Lemma same_fs_conn w c : same_fs w (set_conn c w).
Proof. reflexivity. Qed.

Lemma ctr_le_refl w : ctr_le w w.
Proof. unfold ctr_le. lia. Qed.

Lemma ctr_le_trans w1 w2 w3 : ctr_le w1 w2 -> ctr_le w2 w3 -> ctr_le w1 w3.
Proof. unfold ctr_le. lia. Qed.

Lemma ctr_le_conn w c : ctr_le w (set_conn c w).
Proof. unfold ctr_le. simpl. lia. Qed.

Lemma same_fs_uuid4 : preserves same_fs uuid4.
Proof. intros w. reflexivity. Qed.

Lemma ctr_le_uuid4 : preserves ctr_le uuid4.
Proof. intros w. unfold ctr_le. simpl. lia. Qed.

Lemma same_fs_ws_connect ep hs ms : preserves same_fs (ws_connect ep hs ms).
Proof.
  intros w. unfold ws_connect.
  destruct (pending w) as [|s rest]; [|destruct (accept s)]; reflexivity.
Qed.

Lemma ctr_le_ws_connect ep hs ms : preserves ctr_le (ws_connect ep hs ms).
Proof.
  intros w. unfold ws_connect, ctr_le.
  destruct (pending w) as [|s rest]; [|destruct (accept s)]; simpl; lia.
Qed.

Lemma ctr_le_write_file path data : preserves ctr_le (write_file path data).
Proof. intros w. unfold ctr_le. simpl. lia. Qed.

(* ================================================================== *)
(** ** The resource id of a voice *)
(* ================================================================== *)

Lemma prefix_S_app rest : String.prefix "S_" ("S_" +:+ rest) = true.
Proof.
  simpl. repeat (destruct (Ascii.ascii_dec _ _); [|congruence]).
  now destruct rest.
Qed.

Lemma prefix_S_inv v : String.prefix "S_" v = true -> exists rest, v = "S_" +:+ rest.
Proof.
  destruct v as [|c1 [|c2 rest]]; cbn [String.prefix]; try discriminate.
  - destruct (Ascii.ascii_dec _ c1); discriminate.
  - destruct (Ascii.ascii_dec _ c1) as [<-|]; [|discriminate].
    destruct (Ascii.ascii_dec _ c2) as [<-|]; [|discriminate].
    intros _. exists rest. reflexivity.
Qed.

(** C7: [get_resource_id_for_voice] depends on the voice identifier alone; an
    identifier that starts with [S_] gets [seed-icl-2.0], every other one
    [seed-tts-2.0]; so [S_abc123] goes to seed-icl and [zh_female_x] to
    seed-tts.  The policy written out in the segment loop is the same
    function. *)
Theorem get_resource_id_for_voice_policy :
  (forall rest, get_resource_id_for_voice ("S_" +:+ rest) = "seed-icl-2.0") /\
  (forall v, (forall rest, v <> "S_" +:+ rest) ->
             get_resource_id_for_voice v = "seed-tts-2.0") /\
  get_resource_id_for_voice "S_abc123" = "seed-icl-2.0" /\
  get_resource_id_for_voice "zh_female_x" = "seed-tts-2.0" /\
  (forall v, segment_resource_id v = get_resource_id_for_voice v).
Proof.
  split; [|split; [|split; [|split]]].
  - intros rest. unfold get_resource_id_for_voice. now rewrite prefix_S_app.
  - intros v Hv. unfold get_resource_id_for_voice.
    destruct (String.prefix "S_" v) eqn:E; [|reflexivity].
    apply prefix_S_inv in E as [rest ->]. now destruct (Hv rest).
  - reflexivity.
  - reflexivity.
  - intros v. unfold segment_resource_id, get_resource_id_for_voice.
    now destruct (String.prefix "S_" v).
Qed.

(* ================================================================== *)
(** ** The start-session request *)
(* ================================================================== *)

Ltac unfold_client :=
  unfold synthesize_to_file, steps_2_to_7, steps_2_to_5, cleanup,
    start_connection, finish_connection, start_session, task_request,
    finish_session, wait_for_event, receive_audio, logger_info, ws_close.

(** Walks through a computation, leaving one goal for each observation it
    can make. *)
Ltac obs_auto :=
  repeat first
    [ progress cbv zeta
    | apply obs_all_bind; [|intros ?]
    | apply obs_all_ret
    | apply obs_all_raise
    | apply obs_all_uuid4
    | apply obs_all_write_file
    | apply obs_all_path_exists
    | apply obs_all_emit
    | apply obs_all_ws_send
    | apply obs_all_ws_connect
    | apply obs_all_while_receive; intros ?
    | apply obs_all_try_finally
    | apply obs_all_try_except; [|intros ?] ].

Lemma obs_all_check_and_save (P : Obs -> Prop) a audio_data :
  (forall n, P (OLog (LogAudioSaved (output_file a) n (voice_type a) (resource_id a)))) ->
  obs_all P (check_and_save a audio_data).
Proof.
  intros HP. unfold check_and_save, logger_info.
  destruct audio_data; obs_auto. apply HP.
Qed.

Lemma start_session_audio_params self a uid :
  audio_params_of (start_session_request a (base_request self a uid)) =
  [ ("format", JStr (encoding a));
    ("sample_rate", JNum (PInt (sample_rate self)));
    ("enable_timestamp", JBool true) ]
  ++ (if py_ne_zero (speech_rate a) then [("speech_rate", JNum (speech_rate a))] else [])
  ++ (if py_ne_zero (loudness_rate a) then [("loudness_rate", JNum (loudness_rate a))] else [])
  ++ (if py_str_ne (emotion a) "neutral" then [("emotion", JStr (emotion a))] else [])
  ++ (if py_ne_zero (emotion_scale a) then [("emotion_scale", JNum (emotion_scale a))] else []).
Proof.
  unfold start_session_request, base_request.
  destruct (py_ne_zero (speech_rate a)), (py_ne_zero (loudness_rate a)),
    (py_str_ne (emotion a) "neutral"), (py_ne_zero (emotion_scale a)); reflexivity.
Qed.

Lemma synthesize_start_session_ok self a :
  obs_all (start_session_ok self a) (synthesize_to_file self a).
Proof.
  unfold_client. obs_auto;
    try apply obs_all_check_and_save; intros; intros f Hf Hev;
    try discriminate Hf; injection Hf as <-; try discriminate Hev.
  all: eexists; reflexivity.
Qed.

Lemma py_str_ne_false s t : py_str_ne s t = false <-> s = t.
Proof.
  unfold py_str_ne. rewrite negb_false_iff. apply String.eqb_eq.
Qed.

(** C3: in every call, a [StartSession] frame that reaches the transport has,
    under [req_params.audio_params], each of the keys [speech_rate],
    [loudness_rate], [emotion], [emotion_scale] exactly when the argument
    differs from its unset value (Python's [!= 0], [!= "neutral"]), and then
    with the argument's value; when all four arguments equal their unset
    values the object has the three base keys and nothing else. *)
Theorem start_session_prosody_fields self a w f :
  f ∈ frames (r_obs (synthesize_to_file self a w)) ->
  f_event f = StartSession ->
  let ap := audio_params_of (f_payload f) in
  dict_get "speech_rate" ap
    = (if py_ne_zero (speech_rate a) then Some (JNum (speech_rate a)) else None) /\
  dict_get "loudness_rate" ap
    = (if py_ne_zero (loudness_rate a) then Some (JNum (loudness_rate a)) else None) /\
  dict_get "emotion" ap
    = (if decide (emotion a = "neutral") then None else Some (JStr (emotion a))) /\
  dict_get "emotion_scale" ap
    = (if py_ne_zero (emotion_scale a) then Some (JNum (emotion_scale a)) else None) /\
  (py_ne_zero (speech_rate a) = false -> py_ne_zero (loudness_rate a) = false ->
   emotion a = "neutral" -> py_ne_zero (emotion_scale a) = false ->
   dict_keys ap = ["format"; "sample_rate"; "enable_timestamp"]).
Proof.
  intros Hin Hev ap. subst ap.
  unfold frames in Hin. apply list_elem_of_omap in Hin as (o & Ho & Hf).
  pose proof (synthesize_start_session_ok self a w) as Hall.
  rewrite Forall_forall in Hall.
  destruct (Hall o Ho f Hf Hev) as [uid ->].
  rewrite start_session_audio_params.
  assert (Hem : py_str_ne (emotion a) "neutral"
                = if decide (emotion a = "neutral") then false else true).
  { destruct (decide (emotion a = "neutral")) as [E|E].
    - now apply py_str_ne_false.
    - destruct (py_str_ne (emotion a) "neutral") eqn:E'; [reflexivity|].
      now apply py_str_ne_false in E'. }
  rewrite Hem.
  destruct (py_ne_zero (speech_rate a)), (py_ne_zero (loudness_rate a)),
    (decide (emotion a = "neutral")), (py_ne_zero (emotion_scale a));
    repeat split; try reflexivity; intros; try discriminate; try contradiction.
Qed.

(* ================================================================== *)
(** ** Opening the transport *)
(* ================================================================== *)

Lemma uuid_str_inj n m : uuid_str n = uuid_str m -> n = m.
Proof.
  unfold uuid_str. intros H. injection H as H. change (pretty n = pretty m) in H.
  now apply (inj (pretty (A:=nat))) in H.
Qed.

(** The three ways a call can go at the opening. *)
Lemma synthesize_to_file_unfold self a w :
  synthesize_to_file self a w =
  match pending w with
  | [] =>
      mkRun (opening_obs self a w)
        (mkWorld (S (uuid_ctr w)) [] (conn w) (fs w)) (Raised ConnectionClosed None)
  | s :: rest =>
      match accept s with
      | Some e =>
          mkRun (opening_obs self a w)
            (mkWorld (S (uuid_ctr w)) rest (conn w) (fs w)) (Raised e None)
      | None =>
          let r := try_finally (steps_2_to_7 self a) cleanup (opened w s rest) in
          mkRun (opening_obs self a w ++ OLog LogConnected :: r_obs r)
            (r_world r) (r_out r)
      end
  end.
Proof.
  destruct w as [ctr pend c f].
  unfold synthesize_to_file, opening_obs, opened, bind, uuid4, logger_info, emit,
    ws_connect; cbn.
  destruct pend as [|s rest]; cbn; [reflexivity|].
  destruct (accept s) as [e|]; cbn; reflexivity.
Qed.

Lemma body_not_connect self a :
  obs_all (fun o => is_connect o = false)
    (try_finally (steps_2_to_7 self a) cleanup).
Proof.
  unfold_client. obs_auto; try apply obs_all_check_and_save; intros; reflexivity.
Qed.

Lemma connect_ids_no_connect obs :
  Forall (fun o => is_connect o = false) obs -> connect_ids obs = [].
Proof.
  induction 1 as [|o obs Ho _ IH]; [reflexivity|].
  unfold connect_ids in *.
  destruct o; try discriminate; cbn; exact IH.
Qed.

Lemma synthesize_connect_ids self a w :
  connect_ids (r_obs (synthesize_to_file self a w)) = [uuid_str (uuid_ctr w)].
Proof.
  rewrite synthesize_to_file_unfold.
  destruct (pending w) as [|s rest]; [reflexivity|].
  destruct (accept s); [reflexivity|].
  pose proof (connect_ids_no_connect _ (body_not_connect self a (opened w s rest))) as H.
  unfold connect_ids in *. cbn. f_equal. exact H.
Qed.

(** Walks through a computation for a relation between the worlds, leaving
    the operations that are particular to the relation. *)
Ltac pres_auto trans conn refl :=
  repeat first
    [ progress cbv zeta
    | exact trans
    | exact conn
    | exact refl
    | apply preserves_try_finally
    | apply preserves_bind; [| |intros ?]
    | apply preserves_ws_send
    | apply preserves_while_receive
    | apply preserves_emit
    | apply preserves_ret
    | apply preserves_raise ].

Lemma ctr_le_check_and_save a audio_data : preserves ctr_le (check_and_save a audio_data).
Proof.
  unfold check_and_save, logger_info. destruct audio_data.
  - apply preserves_raise, ctr_le_refl.
  - pres_auto ctr_le_trans ctr_le_conn ctr_le_refl; apply ctr_le_write_file.
Qed.

Lemma ctr_le_try_body self a :
  preserves ctr_le (try_finally (steps_2_to_7 self a) cleanup).
Proof.
  unfold_client. pres_auto ctr_le_trans ctr_le_conn ctr_le_refl;
    first [apply ctr_le_uuid4 | apply ctr_le_check_and_save].
Qed.

Lemma synthesize_ctr_lt self a w :
  uuid_ctr w < uuid_ctr (r_world (synthesize_to_file self a w)).
Proof.
  rewrite synthesize_to_file_unfold.
  destruct (pending w) as [|s rest]; [simpl; lia|].
  destruct (accept s); [simpl; lia|].
  pose proof (ctr_le_try_body self a (opened w s rest)) as H.
  unfold ctr_le in H. simpl in *. lia.
Qed.

(** C9: every call presents, in its attempt to open the transport, exactly
    the four headers: application id, access credential, resource id, and a
    connect id drawn from the uuid supply at that call.  The opening is the
    first thing the transport sees (only the log line precedes it, so no
    frame is sent before it), it happens once, and the supply has moved on
    when the call ends, so that a call made in any later world presents a
    different connect id. *)
Theorem synthesize_opens_with_fresh_headers self a w self2 a2 w2 :
  let r := synthesize_to_file self a w in
  let headers :=
    [ ("X-Api-App-Key", appid self);
      ("X-Api-Access-Key", access_token self);
      ("X-Api-Resource-Id", resource_id a);
      ("X-Api-Connect-Id", uuid_str (uuid_ctr w)) ] in
  (exists rest,
     r_obs r = OLog (LogConnecting (endpoint self) headers)
               :: OConnect (endpoint self) headers (max_size self) :: rest /\
     Forall (fun o => is_connect o = false) rest) /\
  uuid_ctr w < uuid_ctr (r_world r) /\
  (uuid_ctr (r_world r) <= uuid_ctr w2 ->
   exists id1 id2,
     connect_ids (r_obs r) = [id1] /\
     connect_ids (r_obs (synthesize_to_file self2 a2 w2)) = [id2] /\
     id1 <> id2).
Proof.
  intros r headers. split; [|split].
  - subst r. rewrite synthesize_to_file_unfold.
    destruct (pending w) as [|s rest]; [eexists; split; [reflexivity|constructor]|].
    destruct (accept s); [eexists; split; [reflexivity|constructor]|].
    eexists. split; [reflexivity|].
    constructor; [reflexivity|]. apply body_not_connect.
  - apply synthesize_ctr_lt.
  - intros Hle. exists (uuid_str (uuid_ctr w)), (uuid_str (uuid_ctr w2)).
    split; [apply synthesize_connect_ids|]. split; [apply synthesize_connect_ids|].
    intros H. apply uuid_str_inj in H.
    pose proof (synthesize_ctr_lt self a w). subst r. lia.
Qed.

(* ================================================================== *)
(** ** The cleanup *)
(* ================================================================== *)

Lemma count_app p l1 l2 : count p (l1 ++ l2) = count p l1 + count p l2.
Proof. induction l1 as [|o l1 IH]; simpl; [reflexivity|]. rewrite IH. lia. Qed.

Lemma count_none p l : Forall (fun o => p o = false) l -> count p l = 0.
Proof. induction 1 as [|o l Ho _ IH]; simpl; [reflexivity|]. now rewrite Ho, IH. Qed.

Lemma count_recvs p ms : (forall m, p (ORecv m) = false) -> count p (map ORecv ms) = 0.
Proof. intros H. induction ms as [|m ms IH]; simpl; [reflexivity|]. now rewrite H, IH. Qed.

(** A receive loop observes the messages it takes, and nothing else; when it
    returns, the last message it took is the one its body broke on. *)
Lemma while_receive_from_shape {S A} (body : S -> Message -> LoopCtl S A) inb :
  forall s,
  exists recvs,
    (while_receive_from body s inb).1.1 = map ORecv recvs /\
    match (while_receive_from body s inb).2 with
    | Returned a => exists m s', last recvs = Some m /\ body s' m = Break a
    | Raised _ c => c = None
    end.
Proof.
  induction inb as [|[m|e] rest IH]; intros s; simpl.
  - exists []. split; reflexivity.
  - destruct (body s m) as [s'|a|e] eqn:Eb.
    + destruct (IH s') as (recvs & Ho & Hout).
      destruct (while_receive_from body s' rest) as [[o l] out]; simpl in *.
      exists (m :: recvs). split; [now rewrite Ho|].
      destruct out as [a|e c]; [|exact Hout].
      destruct Hout as (m' & s'' & Hl & Hb). exists m', s''. split; [|exact Hb].
      destruct recvs; [discriminate|exact Hl].
    + exists [m]. simpl. split; [reflexivity|]. now exists m, s.
    + exists [m]. simpl. split; reflexivity.
  - exists []. split; reflexivity.
Qed.

Lemma wait_for_event_shape ty ev w :
  exists recvs,
    r_obs (wait_for_event ty ev w) = map ORecv recvs /\
    match r_out (wait_for_event ty ev w) with
    | Returned m => last recvs = Some m /\ carries ty ev m
    | Raised _ c => c = None
    end.
Proof.
  unfold wait_for_event, while_receive.
  destruct (while_receive_from_shape
              (fun (_ : unit) msg =>
                 if bool_decide (type msg = ty /\ event msg = Some ev)
                 then Break msg else Continue tt) (inbound (conn w)) tt)
    as (recvs & Ho & Hout).
  destruct (while_receive_from _ tt (inbound (conn w))) as [[o l] out]; simpl in *.
  exists recvs. split; [exact Ho|].
  destruct out as [m|e c]; [|exact Hout].
  destruct Hout as (m' & s' & Hl & Hb).
  case_bool_decide as Hc; [|discriminate].
  injection Hb as <-. split; [exact Hl|exact Hc].
Qed.

(** The cleanup always starts with one attempt to send [FinishConnection].
    It closes the transport only when that frame was delivered and
    [ConnectionFinished] came in; otherwise it raises where it failed. *)
Lemma cleanup_shape w :
  exists att recvs after,
    r_obs (cleanup w) = att :: map ORecv recvs ++ after /\
    is_finish_attempt att = true /\
    ((att = OSent finish_frame /\
      (exists m, last recvs = Some m /\ carries FullServerResponse ConnectionFinished m) /\
      after = [OClosed; OLog LogConnectionClosed] /\
      r_out (cleanup w) = Returned tt)
     \/
     (after = [] /\ exists e, r_out (cleanup w) = Raised e None)).
Proof.
  unfold cleanup, finish_connection, bind, ws_send, ws_close, logger_info, emit.
  fold finish_frame.
  destruct (sends (conn w)) as [|[e|] rest]; cbn [r_out r_obs r_world].
  2: { exists (OSendFailed finish_frame), [], [].
       split; [reflexivity|]. split; [reflexivity|].
       right. split; [reflexivity|]. now exists e. }
  all: match goal with
       | |- context [wait_for_event ?t ?e ?w'] =>
           destruct (wait_for_event_shape t e w') as (recvs & Ho & Hout);
           destruct (r_out (wait_for_event t e w')) as [m|e' c] eqn:Ew
       end;
    cbn [r_out r_obs r_world]; rewrite Ho.
  1,3: destruct Hout as [Hl Hc];
    exists (OSent finish_frame), recvs, [OClosed; OLog LogConnectionClosed];
    split; [reflexivity|]; split; [reflexivity|]; left;
    split; [reflexivity|]; split; [now exists m|]; split; reflexivity.
  all: subst c; exists (OSent finish_frame), recvs, [];
    rewrite app_nil_r; split; [reflexivity|]; split; [reflexivity|]; right;
    split; [reflexivity|]; now exists e'.
Qed.

Lemma steps_2_to_7_body_obs self a : obs_all body_obs (steps_2_to_7 self a).
Proof.
  unfold_client. obs_auto; try apply obs_all_check_and_save; intros;
    repeat split; reflexivity.
Qed.

Lemma steps_2_to_5_quiet self a : obs_all quiet_obs (steps_2_to_5 self a).
Proof. unfold_client. obs_auto; reflexivity. Qed.

Lemma receive_audio_quiet : obs_all quiet_obs receive_audio.
Proof. unfold_client. obs_auto; reflexivity. Qed.

Lemma logs_quiet obs : Forall quiet_obs obs -> logs obs = [].
Proof.
  induction 1 as [|o obs Ho _ IH]; [reflexivity|].
  unfold logs in *. cbn. unfold quiet_obs in Ho. now rewrite Ho.
Qed.

Lemma logs_app l1 l2 : logs (l1 ++ l2) = logs l1 ++ logs l2.
Proof. apply omap_app. Qed.

Lemma logs_recvs ms : logs (map ORecv ms) = [].
Proof. induction ms as [|m ms IH]; [reflexivity|exact IH]. Qed.

Lemma same_fs_steps_2_to_5 self a : preserves same_fs (steps_2_to_5 self a).
Proof.
  unfold_client. pres_auto same_fs_trans same_fs_conn same_fs_refl; apply same_fs_uuid4.
Qed.

Lemma same_fs_receive_audio : preserves same_fs receive_audio.
Proof. unfold_client. pres_auto same_fs_trans same_fs_conn same_fs_refl. Qed.

Lemma same_fs_cleanup : preserves same_fs cleanup.
Proof. unfold_client. pres_auto same_fs_trans same_fs_conn same_fs_refl. Qed.

(** The two ways the body of the [try] can end.  It raises, and then it has
    logged nothing and has left the file system alone; or it returns, and then
    it has collected some audio, not empty, and has written it to the output
    file just before its log line. *)
Lemma steps_2_to_7_cases self a w :
  let r := steps_2_to_7 self a w in
  (exists e c, r_out r = Raised e c /\ fs (r_world r) = fs w /\ logs (r_obs r) = [])
  \/
  (exists audio_data,
     audio_data <> [] /\ r_out r = Returned tt /\
     fs (r_world r) = <[output_file a := audio_data]> (fs w) /\
     logs (r_obs r) =
       [LogAudioSaved (output_file a) (length audio_data) (voice_type a) (resource_id a)]).
Proof.
  unfold steps_2_to_7. cbv zeta.
  pose proof (same_fs_steps_2_to_5 self a w) as F1.
  pose proof (steps_2_to_5_quiet self a w) as Q1.
  destruct (r_out (steps_2_to_5 self a w)) as [[]|e c] eqn:E1.
  2: { rewrite (bind_raised _ _ w e c E1). cbn [r_out r_obs r_world].
       left. exists e, c. split; [reflexivity|]. split; [exact F1|]. now apply logs_quiet. }
  rewrite (bind_returned _ _ w tt E1). cbn [r_out r_obs r_world].
  set (w1 := r_world (steps_2_to_5 self a w)) in *.
  pose proof (same_fs_receive_audio w1) as F2.
  pose proof (receive_audio_quiet w1) as Q2.
  unfold same_fs in *.
  destruct (r_out (receive_audio w1)) as [audio_data|e c] eqn:E2.
  2: { rewrite (bind_raised _ _ w1 e c E2). cbn [r_out r_obs r_world].
       left. exists e, c. split; [reflexivity|].
       split; [congruence|]. rewrite logs_app. now rewrite !logs_quiet. }
  rewrite (bind_returned _ _ w1 audio_data E2). cbn [r_out r_obs r_world].
  set (w2 := r_world (receive_audio w1)) in *.
  destruct audio_data as [|b bs]; cbn.
  - left. exists NoAudioData, None. split; [reflexivity|].
    split; [congruence|].
    rewrite app_nil_r, logs_app, !logs_quiet by assumption. reflexivity.
  - right. exists (b :: bs). split; [discriminate|]. split; [reflexivity|].
    split; [now rewrite F2, F1|].
    rewrite !logs_app, !logs_quiet by assumption. reflexivity.
Qed.

(** A call that has opened the transport is the opening, then the body of
    the [try], then the cleanup, with the outcome that [finally] gives. *)
Lemma opened_run self a w s rest :
  pending w = s :: rest -> accept s = None ->
  let rb := steps_2_to_7 self a (opened w s rest) in
  let rc := cleanup (r_world rb) in
  let r := synthesize_to_file self a w in
  r_obs r = (opening_obs self a w ++ OLog LogConnected :: r_obs rb) ++ r_obs rc /\
  r_world r = r_world rc /\
  r_out r = match r_out rc with
            | Returned _ => r_out rb
            | Raised e' c' =>
                match r_out rb with
                | Returned _ => Raised e' c'
                | Raised e _ => Raised e' (Some e)
                end
            end.
Proof.
  intros Hp Ha. cbv zeta. rewrite synthesize_to_file_unfold, Hp, Ha. cbv zeta.
  unfold try_finally. cbn [r_obs r_out r_world].
  split; [now rewrite <- app_assoc|]. split; reflexivity.
Qed.

Lemma body_counts self a w s rest :
  let before := opening_obs self a w ++ OLog LogConnected
                :: r_obs (steps_2_to_7 self a (opened w s rest)) in
  count is_finish_attempt before = 0 /\ count is_closed before = 0.
Proof.
  cbv zeta. pose proof (steps_2_to_7_body_obs self a (opened w s rest)) as Hb.
  split; rewrite count_app; cbn; apply count_none;
    (eapply Forall_impl; [exact Hb|]); intros o (H1 & H2 & H3); assumption.
Qed.

(** A receive that meets the end of the stream or a transport error raises
    before the wait has seen its message. *)
Lemma wait_from_fails ty ev noise tail e :
  forallb (misses ty ev) noise = true ->
  stream_error tail = Some e ->
  exists remaining,
    while_receive_from
      (fun (_ : unit) msg =>
         if bool_decide (type msg = ty /\ event msg = Some ev)
         then Break msg else Continue tt)
      tt (map InMsg noise ++ tail)
    = (map ORecv noise, remaining, Raised e None).
Proof.
  intros Hn He. induction noise as [|x noise IH]; cbn [forallb] in Hn.
  - cbn [map app]. destruct tail as [|[m|e'] rest]; cbn in He |- *.
    + injection He as <-. now exists [].
    + discriminate He.
    + injection He as <-. now exists rest.
  - apply andb_true_iff in Hn as [Hx Hn]. unfold misses in Hx.
    apply negb_true_iff in Hx. cbn [map app while_receive_from].
    rewrite Hx. destruct (IH Hn) as [remaining ->]. now exists remaining.
Qed.

(** A wait that finds its message, in any world. *)
Lemma wait_from_passes ty ev noise m rest :
  forallb (misses ty ev) noise = true ->
  carries ty ev m ->
  while_receive_from
    (fun (_ : unit) msg =>
       if bool_decide (type msg = ty /\ event msg = Some ev)
       then Break msg else Continue tt)
    tt (map InMsg noise ++ InMsg m :: rest)
  = (map ORecv (noise ++ [m]), rest, Returned m).
Proof.
  intros Hn Hm. induction noise as [|x noise IH]; cbn [forallb] in Hn.
  - cbn. now rewrite bool_decide_eq_true_2.
  - apply andb_true_iff in Hn as [Hx Hn]. unfold misses in Hx.
    apply negb_true_iff in Hx. cbn [map app while_receive_from].
    rewrite Hx, (IH Hn). reflexivity.
Qed.

(** Every inbound stream is, for a wait, some messages that it passes over
    and then either its message or an error. *)
Lemma wait_stream_cases ty ev inb :
  exists noise tail,
    inb = map InMsg noise ++ tail /\
    forallb (misses ty ev) noise = true /\
    ((exists m rest, tail = InMsg m :: rest /\ carries ty ev m)
     \/ (exists e, stream_error tail = Some e)).
Proof.
  induction inb as [|[m|e] inb IH].
  - exists [], []. repeat split. right. now exists ConnectionClosed.
  - destruct (decide (type m = ty /\ event m = Some ev)) as [Hm|Hm].
    + exists [], (InMsg m :: inb). repeat split. left. now exists m, inb.
    + destruct IH as (noise & tail & -> & Hn & Ht).
      exists (m :: noise), tail. split; [reflexivity|]. split; [|exact Ht].
      cbn [forallb]. unfold misses at 1. now rewrite bool_decide_eq_false_2, Hn.
  - exists [], (InRaise e :: inb). repeat split. right. now exists e.
Qed.

(** The three ways through the [finally] block: the send of
    [FinishConnection] fails; the frame goes out and the wait for
    [ConnectionFinished] fails; the frame goes out, [ConnectionFinished]
    comes in, and the transport is closed. *)
Lemma cleanup_send_fails w e :
  next_send_error (conn w) = Some e ->
  r_obs (cleanup w) = [OSendFailed finish_frame] /\ r_out (cleanup w) = Raised e None.
Proof.
  unfold next_send_error, cleanup, finish_connection, bind, ws_send. fold finish_frame.
  destruct (sends (conn w)) as [|[e'|] rest]; try discriminate.
  intros [= <-]. cbn. split; reflexivity.
Qed.

Lemma cleanup_wait_fails w noise tail e :
  next_send_error (conn w) = None ->
  inbound (conn w) = map InMsg noise ++ tail ->
  forallb (misses FullServerResponse ConnectionFinished) noise = true ->
  stream_error tail = Some e ->
  r_obs (cleanup w) = OSent finish_frame :: map ORecv noise /\
  r_out (cleanup w) = Raised e None.
Proof.
  intros Hs Hi Hn He.
  destruct (wait_from_fails FullServerResponse ConnectionFinished noise tail e Hn He)
    as [remaining Hw].
  unfold next_send_error in Hs.
  unfold cleanup, finish_connection, bind, ws_send, wait_for_event, while_receive.
  fold finish_frame.
  destruct (sends (conn w)) as [|[e'|] rest]; try discriminate;
    cbn [r_out r_obs r_world conn set_conn inbound]; rewrite Hi, Hw;
    cbn; split; reflexivity.
Qed.

Lemma cleanup_completes w noise cf rest :
  next_send_error (conn w) = None ->
  inbound (conn w) = map InMsg noise ++ InMsg cf :: rest ->
  forallb (misses FullServerResponse ConnectionFinished) noise = true ->
  carries FullServerResponse ConnectionFinished cf ->
  r_obs (cleanup w)
  = OSent finish_frame :: map ORecv (noise ++ [cf]) ++ [OClosed; OLog LogConnectionClosed] /\
  r_out (cleanup w) = Returned tt.
Proof.
  intros Hs Hi Hn Hc.
  pose proof (wait_from_passes FullServerResponse ConnectionFinished noise cf rest Hn Hc)
    as Hw.
  unfold next_send_error in Hs.
  unfold cleanup, finish_connection, bind, ws_send, wait_for_event, while_receive,
    ws_close, logger_info, emit.
  fold finish_frame.
  destruct (sends (conn w)) as [|[e'|] rest']; try discriminate;
    cbn [r_out r_obs r_world conn set_conn inbound]; rewrite Hi, Hw;
    cbn; split; reflexivity.
Qed.

(** C1, amended: in every call that has opened the transport, whether steps
    2 to 7 return or raise, the cleanup is entered once on the way out.
    Nothing before it is a [FinishConnection] or a close, and the call makes
    exactly one attempt to send [FinishConnection].  What follows depends on
    the transport alone.  When that frame is delivered and a
    [FullServerResponse] with [ConnectionFinished] comes in (after any other
    messages, which the wait discards), the call closes the transport, once
    and after them, and the outcome of steps 2 to 7 stands.  When the send
    fails, or the stream ends or fails before [ConnectionFinished], the call
    stops there, does not close the transport, and raises that error of the
    cleanup, with the error of steps 2 to 7, if there was one, as its
    context.  One of these cases always applies. *)
Theorem cleanup_entered_once self a w s rest :
  pending w = s :: rest -> accept s = None ->
  let rb := steps_2_to_7 self a (opened w s rest) in
  let r := synthesize_to_file self a w in
  let before := opening_obs self a w ++ OLog LogConnected :: r_obs rb in
  count is_finish_attempt before = 0 /\ count is_closed before = 0 /\
  count is_finish_attempt (r_obs r) = 1 /\
  (forall e,
     next_send_error (conn (r_world rb)) = Some e ->
     r_obs r = before ++ [OSendFailed finish_frame] /\
     count is_closed (r_obs r) = 0 /\
     r_out r = Raised e (in_flight (r_out rb))) /\
  (forall noise tail,
     next_send_error (conn (r_world rb)) = None ->
     inbound (conn (r_world rb)) = map InMsg noise ++ tail ->
     forallb (misses FullServerResponse ConnectionFinished) noise = true ->
     (forall cf rest',
        tail = InMsg cf :: rest' ->
        carries FullServerResponse ConnectionFinished cf ->
        r_obs r = before ++ OSent finish_frame :: map ORecv (noise ++ [cf])
                         ++ [OClosed; OLog LogConnectionClosed] /\
        count is_closed (r_obs r) = 1 /\
        r_out r = r_out rb) /\
     (forall e,
        stream_error tail = Some e ->
        r_obs r = before ++ OSent finish_frame :: map ORecv noise /\
        count is_closed (r_obs r) = 0 /\
        r_out r = Raised e (in_flight (r_out rb)))) /\
  (exists noise tail,
     inbound (conn (r_world rb)) = map InMsg noise ++ tail /\
     forallb (misses FullServerResponse ConnectionFinished) noise = true /\
     ((exists cf rest',
         tail = InMsg cf :: rest' /\ carries FullServerResponse ConnectionFinished cf)
      \/ (exists e, stream_error tail = Some e))).
Proof.
  intros Hp Ha rb r before.
  destruct (opened_run self a w s rest Hp Ha) as (Hobs & _ & Hout).
  fold rb r before in Hobs, Hout.
  destruct (body_counts self a w s rest) as [Cf Cc]. fold rb before in Cf, Cc.
  split; [exact Cf|]. split; [exact Cc|]. split; [|split; [|split]].
  4: apply wait_stream_cases.
  - destruct (cleanup_shape (r_world rb)) as (att & recvs & after & Ho & Hatt & Hcase).
    rewrite Hobs, Ho, count_app, Cf. cbn [count]. rewrite Hatt, count_app.
    rewrite count_recvs by reflexivity.
    destruct Hcase as [(_ & _ & -> & _)|(-> & _)]; reflexivity.
  - intros e Hs. destruct (cleanup_send_fails _ _ Hs) as [Ho Hc].
    rewrite Hobs, Ho, Hout, Hc.
    split; [reflexivity|]. split; [now rewrite count_app, Cc|].
    now destruct (r_out rb).
  - intros noise tail Hs Hi Hn. split.
    + intros cf rest' -> Hcf.
      destruct (cleanup_completes _ _ _ _ Hs Hi Hn Hcf) as [Ho Hc].
      rewrite Hobs, Ho, Hout, Hc.
      split; [reflexivity|]. split; [|reflexivity].
      rewrite count_app, Cc. cbn [count is_closed].
      rewrite count_app, count_recvs by reflexivity. reflexivity.
    + intros e He.
      destruct (cleanup_wait_fails _ _ _ _ Hs Hi Hn He) as [Ho Hc].
      rewrite Hobs, Ho, Hout, Hc.
      split; [reflexivity|]. split; [|now destruct (r_out rb)].
      rewrite count_app, Cc. cbn [count is_closed].
      now rewrite count_recvs by reflexivity.
Qed.

(** C1: a server accepts the opening and ends the stream without a word.
    The wait of step 2 fails; the cleanup sends [FinishConnection], its own
    wait fails too, and the transport is never closed.  On a transport that
    refuses to send once the stream has ended, [FinishConnection] is not
    even delivered. *)
Lemma cleanup_entered_once_counterexample :
  let r := synthesize_to_file client0 args0 (world0 silent_server) in
  let r' := synthesize_to_file client0 args0 (world0 dropping_server) in
  r_out r = Raised ConnectionClosed (Some ConnectionClosed) /\
  count is_finish_sent (r_obs r) = 1 /\
  count is_closed (r_obs r) = 0 /\
  count is_finish_sent (r_obs r') = 0 /\
  count is_closed (r_obs r') = 0 /\
  ~ (count is_finish_sent (r_obs r) = 1 /\ count is_closed (r_obs r) = 1).
Proof.
  cbv zeta. repeat (split; [reflexivity|]).
  intros [_ H]. vm_compute in H. discriminate H.
Qed.

Lemma cleanup_entered_once_witness :
  let r1 := synthesize_to_file client0 args0 (world0 abc_server) in
  let r2 := synthesize_to_file client0 args0 (world0 rejecting_polite_server) in
  let r3 := synthesize_to_file client0 args0 (world0 silent_server) in
  let r4 := synthesize_to_file client0 args0 (world0 dropping_server) in
  (count is_finish_attempt (r_obs r1) = 1 /\ count is_closed (r_obs r1) = 1 /\
   r_out r1 = Returned tt) /\
  (count is_finish_attempt (r_obs r2) = 1 /\ count is_closed (r_obs r2) = 1 /\
   r_out r2 = Raised (TTSConversionFailed error_frame) None) /\
  (count is_finish_attempt (r_obs r3) = 1 /\ count is_closed (r_obs r3) = 0 /\
   r_out r3 = Raised ConnectionClosed (Some ConnectionClosed)) /\
  (count is_finish_attempt (r_obs r4) = 1 /\ count is_closed (r_obs r4) = 0 /\
   r_out r4 = Raised ConnectionClosed (Some ConnectionClosed)).
Proof.
  cbv zeta. split; [|split; [|split]].
  - destruct (cleanup_entered_once client0 args0 (world0 abc_server) abc_server []
                eq_refl eq_refl) as (_ & _ & Hf & _ & Hw & _).
    destruct (Hw [] [InMsg (fsr ConnectionFinished)] eq_refl eq_refl eq_refl) as [Hc _].
    destruct (Hc (fsr ConnectionFinished) [] eq_refl (conj eq_refl eq_refl))
      as (_ & Hcl & Hout).
    split; [exact Hf|]. split; [exact Hcl|]. rewrite Hout. reflexivity.
  - destruct (cleanup_entered_once client0 args0 (world0 rejecting_polite_server)
                rejecting_polite_server [] eq_refl eq_refl) as (_ & _ & Hf & _ & Hw & _).
    destruct (Hw [] [InMsg (fsr ConnectionFinished)] eq_refl eq_refl eq_refl) as [Hc _].
    destruct (Hc (fsr ConnectionFinished) [] eq_refl (conj eq_refl eq_refl))
      as (_ & Hcl & Hout).
    split; [exact Hf|]. split; [exact Hcl|]. rewrite Hout. reflexivity.
  - destruct (cleanup_entered_once client0 args0 (world0 silent_server) silent_server []
                eq_refl eq_refl) as (_ & _ & Hf & _ & Hw & _).
    destruct (Hw [] [] eq_refl eq_refl eq_refl) as [_ He].
    destruct (He ConnectionClosed eq_refl) as (_ & Hcl & Hout).
    split; [exact Hf|]. split; [exact Hcl|]. rewrite Hout. reflexivity.
  - destruct (cleanup_entered_once client0 args0 (world0 dropping_server) dropping_server []
                eq_refl eq_refl) as (_ & _ & Hf & Hs & _ & _).
    destruct (Hs ConnectionClosed eq_refl) as (_ & Hcl & Hout).
    split; [exact Hf|]. split; [exact Hcl|]. rewrite Hout. reflexivity.
Defined.

(** C2, amended: when steps 2 to 7 raise an error [E] and the cleanup then
    fails with [E'], nothing catches the cleanup's failure: the call raises
    [E'], and [E] survives only as the context of [E'].  No line is logged
    about either failure (the log holds the two opening lines and nothing
    else), and the transport is not closed. *)
Theorem cleanup_failure_replaces_error self a w s rest E c E' c' :
  pending w = s :: rest -> accept s = None ->
  r_out (steps_2_to_7 self a (opened w s rest)) = Raised E c ->
  r_out (cleanup (r_world (steps_2_to_7 self a (opened w s rest)))) = Raised E' c' ->
  let r := synthesize_to_file self a w in
  r_out r = Raised E' (Some E) /\
  logs (r_obs r) =
    [ LogConnecting (endpoint self)
        (connect_headers self (resource_id a) (uuid_str (uuid_ctr w)));
      LogConnected ] /\
  count is_closed (r_obs r) = 0.
Proof.
  intros Hp Ha Hb Hc r.
  destruct (opened_run self a w s rest Hp Ha) as (Hobs & _ & Hout).
  subst r. rewrite Hobs, Hout, Hb, Hc. split; [reflexivity|].
  destruct (steps_2_to_7_cases self a (opened w s rest))
    as [(e0 & c0 & _ & _ & Hl)|(ad & _ & Hr & _)]; [|congruence].
  destruct (body_counts self a w s rest) as [_ Cc].
  destruct (cleanup_shape (r_world (steps_2_to_7 self a (opened w s rest))))
    as (att & recvs & after & Ho & Hatt & [(_ & _ & _ & Hret)|(-> & _)]);
    [congruence|].
  rewrite Ho, app_nil_r. split.
  - change (OLog LogConnected :: ?l) with ([OLog LogConnected] ++ l).
    change (att :: ?l) with ([att] ++ l).
    rewrite !logs_app, Hl, logs_recvs.
    destruct att; try discriminate Hatt; reflexivity.
  - rewrite count_app, Cc. cbn [count]. rewrite count_recvs by reflexivity.
    destruct att; try discriminate Hatt; reflexivity.
Qed.

(** C2: the server rejects the request with an [Error] frame and goes away.
    Steps 2 to 7 raise the synthesis failure, the cleanup's wait then fails
    with [ConnectionClosed], and that is what the caller gets. *)
Lemma cleanup_failure_replaces_error_counterexample :
  let w := world0 rejecting_server in
  let r := synthesize_to_file client0 args0 w in
  r_out (steps_2_to_7 client0 args0 (opened w rejecting_server []))
    = Raised (TTSConversionFailed error_frame) None /\
  r_out (cleanup (r_world (steps_2_to_7 client0 args0 (opened w rejecting_server []))))
    = Raised ConnectionClosed None /\
  r_out r = Raised ConnectionClosed (Some (TTSConversionFailed error_frame)) /\
  logs (r_obs r) =
    [ LogConnecting (endpoint client0)
        (connect_headers client0 (resource_id args0) (uuid_str 0));
      LogConnected ] /\
  ~ (exists ctx, r_out r = Raised (TTSConversionFailed error_frame) ctx).
Proof.
  cbv zeta. split; [reflexivity|]. split; [reflexivity|]. split; [reflexivity|].
  split; [reflexivity|]. intros [ctx H]. vm_compute in H. discriminate H.
Qed.

Lemma cleanup_failure_replaces_error_witness :
  let w := world0 rejecting_server in
  r_out (synthesize_to_file client0 args0 w)
    = Raised ConnectionClosed (Some (TTSConversionFailed error_frame)) /\
  count is_closed (r_obs (synthesize_to_file client0 args0 w)) = 0.
Proof.
  cbv zeta.
  destruct (cleanup_failure_replaces_error client0 args0 (world0 rejecting_server)
              rejecting_server [] (TTSConversionFailed error_frame) None
              ConnectionClosed None eq_refl eq_refl eq_refl eq_refl)
    as (Hout & _ & Hcl).
  split; [exact Hout|exact Hcl].
Defined.

(* ================================================================== *)
(** ** The output file *)
(* ================================================================== *)

(** C10, amended: the output file is written exactly when steps 2 to 7 have
    all passed, the check for audio included, and then with the collected
    audio, which is not empty.  When the transport does not open, or when
    steps 2 to 7 raise (an [Error] frame, no audio, a transport or protocol
    error), the call raises and the file system is as it was before the
    call.  A failure of the cleanup after the file was written does not undo
    the write. *)
Theorem output_file_written_iff_steps_pass self a w :
  let r := synthesize_to_file self a w in
  match body_outcome self a w with
  | Some (Returned _) =>
      exists audio_data,
        audio_data <> [] /\
        fs (r_world r) = <[output_file a := audio_data]> (fs w)
  | _ => fs (r_world r) = fs w /\ exists e c, r_out r = Raised e c
  end.
Proof.
  cbv zeta. unfold body_outcome.
  destruct (pending w) as [|s rest] eqn:Hp.
  { rewrite synthesize_to_file_unfold, Hp. cbn. eauto. }
  destruct (accept s) as [e|] eqn:Ha.
  { rewrite synthesize_to_file_unfold, Hp, Ha. cbn. eauto. }
  destruct (opened_run self a w s rest Hp Ha) as (_ & Hw & Hout).
  rewrite Hw, Hout.
  pose proof (same_fs_cleanup (r_world (steps_2_to_7 self a (opened w s rest)))) as Fc.
  unfold same_fs in Fc. rewrite Fc.
  destruct (steps_2_to_7_cases self a (opened w s rest))
    as [(e0 & c0 & Hr & Hfs & _)|(ad & Hne & Hr & Hfs & _)]; rewrite Hr.
  - split; [exact Hfs|].
    destruct (r_out (cleanup _)) as [u|e' c']; eauto.
  - exists ad. split; [exact Hne|exact Hfs].
Qed.

(** C10: the server delivers audio and [SessionFinished] and then goes away.
    The file is written, the cleanup's wait fails, and the call raises: a
    failed call that has created its output file. *)
Lemma output_file_written_iff_steps_pass_counterexample :
  let w := world0 vanishing_server in
  let r := synthesize_to_file client0 args0 w in
  r_out r = Raised ConnectionClosed None /\
  fs w !! output_file args0 = None /\
  fs (r_world r) !! output_file args0 = Some [x41] /\
  ~ (fs (r_world r) = fs w).
Proof.
  cbv zeta. split; [reflexivity|]. split; [reflexivity|].
  assert (H : fs (r_world (synthesize_to_file client0 args0 (world0 vanishing_server)))
              !! output_file args0 = Some [x41]) by (vm_compute; reflexivity).
  split; [exact H|]. intros E. rewrite E in H. discriminate H.
Qed.

(* ================================================================== *)
(** ** The receive loop *)
(* ================================================================== *)

Lemma receive_audio_body_continues audio_data m :
  loop_continues m = true ->
  receive_audio_body audio_data m
  = Continue (audio_data ++
              (if bool_decide (type m = AudioOnlyServer) then payload m else [])).
Proof.
  unfold loop_continues, receive_audio_body. intros H.
  apply andb_true_iff in H as [H1 H2].
  apply negb_true_iff in H1, H2.
  apply bool_decide_eq_false in H1, H2.
  destruct (type m), (event m) as [[]|]; cbn in *;
    rewrite ?app_nil_r; try reflexivity; exfalso; auto.
Qed.

(** Over messages on which the loop goes round, it takes them all and goes on
    with their audio appended. *)
Lemma receive_from_continues quiet : forall audio_data rest,
  forallb loop_continues quiet = true ->
  while_receive_from receive_audio_body audio_data (map InMsg quiet ++ rest)
  = let '(o, remaining, out) :=
      while_receive_from receive_audio_body (audio_data ++ collected quiet) rest in
    (map ORecv quiet ++ o, remaining, out).
Proof.
  induction quiet as [|m quiet IH]; intros audio_data rest H; cbn [forallb] in H.
  - cbn. rewrite app_nil_r.
    now destruct (while_receive_from receive_audio_body audio_data rest) as [[o l] out].
  - apply andb_true_iff in H as [Hm Hq].
    cbn [map app while_receive_from collected].
    rewrite (receive_audio_body_continues _ _ Hm), (IH _ _ Hq), <- app_assoc.
    now destruct (while_receive_from receive_audio_body _ rest) as [[o l] out].
Qed.

Lemma receive_audio_run quiet rest w :
  inbound (conn w) = map InMsg quiet ++ rest ->
  forallb loop_continues quiet = true ->
  receive_audio w
  = let '(o, remaining, out) :=
      while_receive_from receive_audio_body (collected quiet) rest in
    mkRun (map ORecv quiet ++ o)
      (set_conn (mkServer (accept (conn w)) (sends (conn w)) remaining) w) out.
Proof.
  intros Hi Hq. unfold receive_audio, while_receive.
  rewrite Hi, (receive_from_continues _ _ _ Hq). cbn [app].
  now destruct (while_receive_from receive_audio_body (collected quiet) rest)
    as [[o l] out].
Qed.

(** C5: the receive loop takes the inbound messages in order.  Over any
    messages that are neither the [SessionFinished] response nor of type
    [Error], it appends the payload of each [AudioOnlyServer] message to the
    buffer, in arrival order, and skips the others.  A [FullServerResponse]
    with [SessionFinished] stops it with the buffer as the result.  A message
    of type [Error] aborts the loop with the synthesis failure, as the
    sentence of the specification behind the claim has it.  In the scenario ([ConnectionStarted], [SessionStarted], audio
    [A], [B], [C], [SessionFinished], with or without a final
    [ConnectionFinished]) the audio is [ABC]. *)
Theorem receive_loop_collects quiet stop rest w :
  inbound (conn w) = map InMsg quiet ++ InMsg stop :: rest ->
  forallb loop_continues quiet = true ->
  (carries FullServerResponse SessionFinished stop ->
   r_out (receive_audio w) = Returned (collected quiet) /\
   r_obs (receive_audio w) = map ORecv (quiet ++ [stop]) /\
   inbound (conn (r_world (receive_audio w))) = rest) /\
  (type stop = Error ->
   r_out (receive_audio w) = Raised (TTSConversionFailed stop) None) /\
  fs (r_world (synthesize_to_file client0 args0 (world0 abc_server)))
    !! output_file args0 = Some [x41; x42; x43] /\
  fs (r_world (synthesize_to_file client0 args0 (world0 abc_server_short)))
    !! output_file args0 = Some [x41; x42; x43].
Proof.
  intros Hi Hq. rewrite (receive_audio_run _ _ _ Hi Hq).
  cbn [while_receive_from]. unfold receive_audio_body.
  split; [|split; [|split; vm_compute; reflexivity]].
  - intros [Ht He]. rewrite Ht, He. cbn.
    split; [reflexivity|]. split; [|reflexivity].
    now rewrite map_app.
  - intros Ht. rewrite Ht. reflexivity.
Qed.

Lemma receive_loop_collects_witness :
  let quiet := [audio [x41]; fsr SessionStarted; audio [x42]; audio [x43]] in
  let w := receiving (map InMsg quiet ++ [InMsg (fsr SessionFinished)]) in
  r_out (receive_audio w) = Returned [x41; x42; x43] /\
  r_out (receive_audio (receiving (map InMsg quiet ++ [InMsg error_frame])))
    = Raised (TTSConversionFailed error_frame) None.
Proof.
  cbv zeta. split.
  - apply (receive_loop_collects
             [audio [x41]; fsr SessionStarted; audio [x42]; audio [x43]]
             (fsr SessionFinished) []
             (receiving (map InMsg [audio [x41]; fsr SessionStarted; audio [x42]; audio [x43]]
                         ++ [InMsg (fsr SessionFinished)]))
             eq_refl eq_refl).
    split; reflexivity.
  - apply (receive_loop_collects
             [audio [x41]; fsr SessionStarted; audio [x42]; audio [x43]]
             error_frame []
             (receiving (map InMsg [audio [x41]; fsr SessionStarted; audio [x42]; audio [x43]]
                         ++ [InMsg error_frame]))
             eq_refl eq_refl).
    reflexivity.
Defined.

(* ================================================================== *)
(** ** The frames of a call *)
(* ================================================================== *)

Lemma frames_app l1 l2 : frames (l1 ++ l2) = frames l1 ++ frames l2.
Proof. apply omap_app. Qed.

Lemma frames_recvs ms : frames (map ORecv ms) = [].
Proof. induction ms as [|m ms IH]; [reflexivity|exact IH]. Qed.

Lemma emits_ret {A} (a : A) : emits [] (ret a).
Proof. intros w. reflexivity. Qed.

Lemma emits_raise {A} e : emits [] (@raise A e).
Proof. intros w. cbn. reflexivity. Qed.

Lemma emits_uuid4 : emits [] uuid4.
Proof. intros w. reflexivity. Qed.

Lemma emits_log l : emits [] (logger_info l).
Proof. intros w. reflexivity. Qed.

Lemma emits_write_file path data : emits [] (write_file path data).
Proof. intros w. reflexivity. Qed.

Lemma emits_ws_send ev sid p : emits [ev] (ws_send (mkFrame ev sid p)).
Proof.
  intros w. unfold ws_send.
  destruct (sends (conn w)) as [|[e|] rest]; cbn; reflexivity.
Qed.

Lemma emits_while_receive {S A} (body : S -> Message -> LoopCtl S A) s :
  emits [] (while_receive body s).
Proof.
  intros w. unfold while_receive, events.
  destruct (while_receive_from_shape body (inbound (conn w)) s) as (recvs & Ho & _).
  destruct (while_receive_from body s (inbound (conn w))) as [[o l] out].
  cbn in *. subst o. rewrite frames_recvs. now destruct out.
Qed.

Lemma emits_bind {A B} (m : M A) (k : A -> M B) l1 l2 l :
  emits l1 m -> (forall a, emits l2 (k a)) -> l = l1 ++ l2 -> emits l (bind m k).
Proof.
  intros Hm Hk -> w. specialize (Hm w).
  destruct (r_out (m w)) as [a|e c] eqn:E.
  - rewrite (bind_returned _ _ _ _ E). cbn [r_out].
    specialize (Hk a (r_world (m w))). unfold events in *. cbn [r_obs].
    rewrite frames_app, map_app, Hm.
    destruct (r_out (k a (r_world (m w)))); [now rewrite Hk|].
    now apply prefix_app.
  - rewrite (bind_raised _ _ _ _ _ E). cbn [r_out]. unfold events in *. cbn [r_obs].
    now apply prefix_app_r.
Qed.

Ltac emits_step :=
  lazymatch goal with
  | |- emits _ (bind _ _) => eapply emits_bind; [| intros ? |]
  | |- emits _ (ws_send _) => apply emits_ws_send
  | |- emits _ (while_receive _ _) => apply emits_while_receive
  | |- emits _ uuid4 => apply emits_uuid4
  | |- emits _ (logger_info _) => apply emits_log
  | |- emits _ (write_file _ _) => apply emits_write_file
  | |- emits _ (ret _) => apply emits_ret
  | |- emits _ (raise _) => apply emits_raise
  | |- emits _ (let _ := _ in _) => cbv zeta
  end.

Ltac emits_auto := repeat emits_step; try reflexivity.

Lemma emits_steps_2_to_5 self a :
  emits [StartConnection; StartSession; TaskRequest; FinishSession] (steps_2_to_5 self a).
Proof.
  unfold steps_2_to_5, start_connection, start_session, task_request, finish_session,
    wait_for_event.
  emits_auto.
Qed.

Lemma emits_receive_audio : emits [] receive_audio.
Proof. apply emits_while_receive. Qed.

Lemma events_cleanup w : events (cleanup w) = [FinishConnection].
Proof.
  destruct (cleanup_shape w) as (att & recvs & after & Ho & Hatt & Hcase).
  unfold events. rewrite Ho.
  change (att :: ?l) with ([att] ++ l). rewrite !frames_app, frames_recvs.
  assert (Ha : frames after = []) by (destruct Hcase as [(_ & _ & -> & _)|(-> & _)]; reflexivity).
  rewrite Ha. unfold is_finish_attempt in Hatt.
  destruct att; cbn in *; try discriminate Hatt;
    case_bool_decide; try discriminate Hatt; congruence.
Qed.

(* ================================================================== *)
(** ** Failures of steps 6 and 7 *)
(* ================================================================== *)

(** Once steps 2 to 5 have passed, the body is the receive loop followed by
    the check and the file. *)
Lemma steps_2_to_7_out self a w :
  r_out (steps_2_to_5 self a w) = Returned tt ->
  r_out (steps_2_to_7 self a w)
  = match r_out (receive_audio (r_world (steps_2_to_5 self a w))) with
    | Returned audio_data =>
        match audio_data with
        | [] => Raised NoAudioData None
        | _ => Returned tt
        end
    | Raised e c => Raised e c
    end.
Proof.
  intros H1. unfold steps_2_to_7. rewrite (bind_returned _ _ _ _ H1). cbn [r_out].
  destruct (r_out (receive_audio (r_world (steps_2_to_5 self a w))))
    as [audio_data|e c] eqn:H2.
  - rewrite (bind_returned _ _ _ _ H2). cbn [r_out]. now destruct audio_data.
  - now rewrite (bind_raised _ _ _ _ _ H2).
Qed.

(** What the caller gets when the body of the [try] has raised [E]. *)
Lemma raised_body_out self a w s rest E c :
  pending w = s :: rest -> accept s = None ->
  r_out (steps_2_to_7 self a (opened w s rest)) = Raised E c ->
  let r := synthesize_to_file self a w in
  fs (r_world r) = fs w /\
  match r_out (cleanup (r_world (steps_2_to_7 self a (opened w s rest)))) with
  | Returned _ => r_out r = Raised E c
  | Raised e' _ => r_out r = Raised e' (Some E)
  end.
Proof.
  intros Hp Ha Hb. cbv zeta.
  destruct (opened_run self a w s rest Hp Ha) as (_ & Hw & Hout).
  rewrite Hw, Hout, Hb. split.
  - pose proof (same_fs_cleanup (r_world (steps_2_to_7 self a (opened w s rest)))) as Fc.
    unfold same_fs in Fc. rewrite Fc.
    destruct (steps_2_to_7_cases self a (opened w s rest))
      as [(e0 & c0 & _ & Hfs & _)|(ad & _ & Hr & _)]; [exact Hfs|congruence].
  - now destruct (r_out (cleanup _)).
Qed.

(** C6, amended: when steps 2 to 5 have passed and the receive loop exits
    with an empty buffer (the server reported [SessionFinished] and no audio
    came before it), the call never succeeds: step 7 raises the no-content
    error and the file system is left as it was.  The caller receives that
    error when the cleanup completes; when the cleanup fails, the caller
    receives the cleanup's error, with the no-content error as its
    context. *)
Theorem empty_audio_fails self a w s rest :
  pending w = s :: rest -> accept s = None ->
  r_out (steps_2_to_5 self a (opened w s rest)) = Returned tt ->
  r_out (receive_audio (r_world (steps_2_to_5 self a (opened w s rest)))) = Returned [] ->
  let r := synthesize_to_file self a w in
  r_out (steps_2_to_7 self a (opened w s rest)) = Raised NoAudioData None /\
  fs (r_world r) = fs w /\
  match r_out (cleanup (r_world (steps_2_to_7 self a (opened w s rest)))) with
  | Returned _ => r_out r = Raised NoAudioData None
  | Raised e' _ => r_out r = Raised e' (Some NoAudioData)
  end.
Proof.
  intros Hp Ha H1 H2 r.
  assert (Hb : r_out (steps_2_to_7 self a (opened w s rest)) = Raised NoAudioData None).
  { now rewrite (steps_2_to_7_out _ _ _ H1), H2. }
  split; [exact Hb|]. exact (raised_body_out self a w s rest _ _ Hp Ha Hb).
Qed.

(** C6: the server reports [SessionFinished] without any audio and goes
    away.  The buffer is empty when the loop exits, the cleanup's wait fails,
    and the caller gets [ConnectionClosed], not the no-content error. *)
Lemma empty_audio_fails_counterexample :
  let w := world0 mute_server in
  let w1 := opened w mute_server [] in
  r_out (steps_2_to_5 client0 args0 w1) = Returned tt /\
  r_out (receive_audio (r_world (steps_2_to_5 client0 args0 w1))) = Returned [] /\
  r_out (synthesize_to_file client0 args0 w) = Raised ConnectionClosed (Some NoAudioData) /\
  ~ (exists ctx, r_out (synthesize_to_file client0 args0 w) = Raised NoAudioData ctx).
Proof.
  cbv zeta. split; [reflexivity|]. split; [reflexivity|]. split; [reflexivity|].
  intros [ctx H]. vm_compute in H. discriminate H.
Qed.

Lemma empty_audio_fails_witness :
  r_out (synthesize_to_file client0 args0 (world0 mute_polite_server))
    = Raised NoAudioData None /\
  r_out (synthesize_to_file client0 args0 (world0 mute_server))
    = Raised ConnectionClosed (Some NoAudioData).
Proof.
  split.
  - apply (empty_audio_fails client0 args0 (world0 mute_polite_server)
             mute_polite_server [] eq_refl eq_refl eq_refl eq_refl).
  - apply (empty_audio_fails client0 args0 (world0 mute_server)
             mute_server [] eq_refl eq_refl eq_refl eq_refl).
Defined.

(** An [Error] message ends the loop with the synthesis failure. *)
Lemma receive_loop_raises quiet err tail w :
  inbound (conn w) = map InMsg quiet ++ InMsg err :: tail ->
  forallb loop_continues quiet = true ->
  type err = Error ->
  r_out (receive_audio w) = Raised (TTSConversionFailed err) None.
Proof.
  intros Hi Hq Ht. rewrite (receive_audio_run _ _ _ Hi Hq).
  cbn [while_receive_from]. unfold receive_audio_body. now rewrite Ht.
Qed.

(** When steps 2 to 5 have passed, the body has sent the four frames of one
    attempt, however it ends. *)
Lemma events_body_after_handshake self a w :
  r_out (steps_2_to_5 self a w) = Returned tt ->
  events (steps_2_to_7 self a w)
  = [StartConnection; StartSession; TaskRequest; FinishSession].
Proof.
  intros H1. pose proof (emits_steps_2_to_5 self a w) as E1. rewrite H1 in E1.
  unfold steps_2_to_7. rewrite (bind_returned _ _ _ _ H1).
  unfold events in *. cbn [r_obs]. rewrite frames_app, map_app, E1.
  set (w1 := r_world (steps_2_to_5 self a w)).
  assert (E2 : emits [] (audio_data <- receive_audio ;; check_and_save a audio_data)).
  { eapply emits_bind; [apply emits_receive_audio| |reflexivity].
    intros audio_data. unfold check_and_save. destruct audio_data; emits_auto. }
  specialize (E2 w1). unfold events in E2.
  destruct (r_out _) in E2.
  - now rewrite E2.
  - apply prefix_nil_inv in E2. now rewrite E2.
Qed.

(* ================================================================== *)
(** ** The segment loop *)
(* ================================================================== *)

(** The [try] of a segment never lets an exception of the call through: when
    the call raises, the handler logs the error and hands back [audio_files]
    as it was. *)
Lemma try_segment_catches call n i voice_type output_file audio_files w e c :
  r_out (call w) = Raised e c ->
  try_segment call n i voice_type output_file audio_files w
  = mkRun (OLog (LogGenerating (i + 1) n voice_type) :: r_obs (call w)
           ++ [OLog (LogTtsFailed i e)])
      (r_world (call w)) (Returned audio_files).
Proof.
  intros H. unfold try_segment, try_except, bind, logger_info, logger_error, emit, ret.
  cbn. rewrite H. cbn. reflexivity.
Qed.

Lemma try_segment_returns call n i voice_type output_file audio_files w :
  exists audio_files', r_out (try_segment call n i voice_type output_file audio_files w)
                       = Returned audio_files'.
Proof.
  destruct (r_out (call w)) as [[]|e c] eqn:H.
  - exists (audio_files ++ [output_file]).
    unfold try_segment, try_except, bind, logger_info, logger_error, emit, ret. cbn. now rewrite H.
  - exists audio_files. now rewrite (try_segment_catches _ _ _ _ _ _ _ _ _ H).
Qed.

(** The loop of [main] goes through all its segments and returns, whatever
    the calls do. *)
Lemma segments_loop_returns self cli output_dir n items : forall i audio_files w,
  exists audio_files',
    r_out (segments_loop self cli output_dir n i items audio_files w)
    = Returned audio_files'.
Proof.
  induction items as [|item items IH]; intros i audio_files w; cbn [segments_loop].
  - now exists audio_files.
  - unfold bind at 1. cbn.
    destruct (bool_decide _).
    + destruct (IH (S i) (audio_files ++ [segment_file output_dir i (item_speaker item)]) w)
        as [fs' H]. exists fs'. now rewrite H.
    + unfold bind. unfold generate_segment.
      match goal with
      | |- context [try_segment ?c ?n ?i ?v ?o ?f ?w] =>
          destruct (try_segment_returns c n i v o f w) as [f1 H1]; rewrite H1
      end.
      cbn.
      match goal with
      | |- context [segments_loop _ _ _ _ _ _ ?f ?w'] =>
          destruct (IH (S i) f w') as [f2 H2]; rewrite H2
      end.
      now exists f2.
Qed.

(** C8, amended: when steps 2 to 5 have passed and a message of type [Error]
    arrives in the receive loop (after messages on which the loop goes
    round), steps 2 to 7 raise the synthesis failure, which carries the
    server's message.  Nothing is retried: the transport was opened once and
    the frames of the call are the five of one attempt; nothing is written.
    The call fails: with the synthesis failure when the cleanup completes,
    and, when the cleanup fails, with the cleanup's error, which has the
    synthesis failure as its context.  The [try] around the call in the
    batch loops catches whichever of them is raised, logs it with the
    segment's index and leaves [audio_files] as it was; the segment loop of
    [main] always runs to its end. *)
Theorem error_frame_aborts self a w s rest quiet err tail :
  pending w = s :: rest -> accept s = None ->
  r_out (steps_2_to_5 self a (opened w s rest)) = Returned tt ->
  inbound (conn (r_world (steps_2_to_5 self a (opened w s rest))))
    = map InMsg quiet ++ InMsg err :: tail ->
  forallb loop_continues quiet = true ->
  type err = Error ->
  let r := synthesize_to_file self a w in
  r_out (steps_2_to_7 self a (opened w s rest)) = Raised (TTSConversionFailed err) None /\
  match r_out (cleanup (r_world (steps_2_to_7 self a (opened w s rest)))) with
  | Returned _ => r_out r = Raised (TTSConversionFailed err) None
  | Raised e' _ => r_out r = Raised e' (Some (TTSConversionFailed err))
  end /\
  events r = [StartConnection; StartSession; TaskRequest; FinishSession; FinishConnection] /\
  connect_ids (r_obs r) = [uuid_str (uuid_ctr w)] /\
  fs (r_world r) = fs w /\
  (forall n i audio_files,
     exists e,
       (e = TTSConversionFailed err \/ r_out r = Raised e (Some (TTSConversionFailed err))) /\
       generate_segment_more_file self a n i audio_files w
       = mkRun (OLog (LogGenerating (i + 1) n (voice_type a)) :: r_obs r
                ++ [OLog (LogTtsFailed i e)])
           (r_world r) (Returned audio_files)) /\
  (forall cli output_dir n i items audio_files w',
     exists audio_files',
       r_out (segments_loop self cli output_dir n i items audio_files w')
       = Returned audio_files').
Proof.
  intros Hp Ha H1 Hi Hq Ht r.
  assert (Hl : r_out (receive_audio (r_world (steps_2_to_5 self a (opened w s rest))))
               = Raised (TTSConversionFailed err) None).
  { apply (receive_loop_raises quiet err tail _ Hi Hq Ht). }
  assert (Hb : r_out (steps_2_to_7 self a (opened w s rest))
               = Raised (TTSConversionFailed err) None).
  { now rewrite (steps_2_to_7_out _ _ _ H1), Hl. }
  destruct (raised_body_out self a w s rest _ _ Hp Ha Hb) as [Hfs Hout].
  fold r in Hfs, Hout.
  split; [exact Hb|]. split; [exact Hout|]. split; [|split; [|split; [|split]]].
  - destruct (opened_run self a w s rest Hp Ha) as (Hobs & _ & _).
    unfold events. subst r. rewrite Hobs, !frames_app.
    change (frames (OLog LogConnected :: ?l)) with (frames l).
    rewrite !map_app.
    fold (events (cleanup (r_world (steps_2_to_7 self a (opened w s rest))))).
    rewrite events_cleanup.
    fold (events (steps_2_to_7 self a (opened w s rest))).
    rewrite (events_body_after_handshake self a _ H1). reflexivity.
  - apply synthesize_connect_ids.
  - exact Hfs.
  - intros n i audio_files.
    destruct (r_out (cleanup (r_world (steps_2_to_7 self a (opened w s rest)))))
      as [u|e' c'].
    + exists (TTSConversionFailed err). split; [now left|].
      unfold generate_segment_more_file, call_synthesize_to_file.
      apply (try_segment_catches _ _ _ _ _ _ _ _ _ Hout).
    + exists e'. split; [now right|].
      unfold generate_segment_more_file, call_synthesize_to_file.
      apply (try_segment_catches _ _ _ _ _ _ _ _ _ Hout).
  - intros. apply segments_loop_returns.
Qed.

(** C8: the server rejects the request and the connection is reset before
    [FinishConnection] can be sent.  The caller gets the transport's error;
    the synthesis failure is only its context. *)
Lemma error_frame_aborts_counterexample :
  let w := world0 resetting_server in
  let w1 := opened w resetting_server [] in
  r_out (steps_2_to_5 client0 args0 w1) = Returned tt /\
  inbound (conn (r_world (steps_2_to_5 client0 args0 w1)))
    = [InMsg error_frame; InMsg (fsr ConnectionFinished)] /\
  r_out (synthesize_to_file client0 args0 w)
    = Raised (NetError "connection reset") (Some (TTSConversionFailed error_frame)) /\
  ~ (exists ctx, r_out (synthesize_to_file client0 args0 w)
                 = Raised (TTSConversionFailed error_frame) ctx).
Proof.
  cbv zeta. split; [reflexivity|]. split; [reflexivity|]. split; [reflexivity|].
  intros [ctx H]. vm_compute in H. discriminate H.
Qed.

Lemma error_frame_aborts_witness :
  r_out (synthesize_to_file client0 args0 (world0 rejecting_polite_server))
    = Raised (TTSConversionFailed error_frame) None /\
  events (synthesize_to_file client0 args0 (world0 rejecting_polite_server))
    = [StartConnection; StartSession; TaskRequest; FinishSession; FinishConnection] /\
  r_out (generate_segment_more_file client0 args0 3 0 [] (world0 rejecting_polite_server))
    = Returned [].
Proof.
  destruct (error_frame_aborts client0 args0 (world0 rejecting_polite_server)
              rejecting_polite_server [] [] error_frame [InMsg (fsr ConnectionFinished)]
              eq_refl eq_refl eq_refl eq_refl eq_refl eq_refl)
    as (_ & Hout & Hev & _ & _ & Hseg & _).
  split; [exact Hout|]. split; [exact Hev|].
  destruct (Hseg 3 0 []) as (e & _ & ->). reflexivity.
Defined.

(* ================================================================== *)
(** ** The [pitch_rate] keyword *)
(* ================================================================== *)

(** C4: [synthesize_to_file] has no pitch parameter.  A call that passes
    [pitch_rate], as the segment loop of [main] does for every segment,
    raises [TypeError] while its arguments are bound: nothing is opened and
    nothing is sent, and the loop logs the failure and produces no file for
    the segment.  No call puts a [pitch_rate] key into the start-session
    request. *)
Theorem pitch_rate_not_accepted self a cli output_dir n i item audio_files w :
  call_synthesize_to_file self a ["pitch_rate"] w
  = mkRun [] w (Raised (UnexpectedKeyword "pitch_rate") None) /\
  generate_segment self cli output_dir n i item audio_files w
  = mkRun [ OLog (LogGenerating (i + 1) n (item_speaker item));
            OLog (LogTtsFailed i (UnexpectedKeyword "pitch_rate")) ]
      w (Returned audio_files) /\
  (forall uid,
     dict_get "pitch_rate"
       (audio_params_of (start_session_request a (base_request self a uid))) = None).
Proof.
  split; [reflexivity|]. split; [reflexivity|].
  intros uid. rewrite start_session_audio_params.
  destruct (py_ne_zero (speech_rate a)), (py_ne_zero (loudness_rate a)),
    (py_str_ne (emotion a) "neutral"), (py_ne_zero (emotion_scale a)); reflexivity.
Qed.

(* ================================================================== *)
(** ** Instances *)
(* ================================================================== *)

Lemma get_resource_id_for_voice_policy_witness :
  get_resource_id_for_voice "zh_female_x" = "seed-tts-2.0" /\
  get_resource_id_for_voice ("S_" +:+ "abc123") = "seed-icl-2.0".
Proof.
  destruct get_resource_id_for_voice_policy as (Hicl & Htts & _).
  split.
  - apply Htts. intros rest H. discriminate H.
  - apply Hicl.
Defined.

Lemma start_session_prosody_fields_witness :
  let f0 := mkFrame StartSession (Some (uuid_str 2))
              (start_session_request args0 (base_request client0 args0 (uuid_str 1))) in
  let f1 := mkFrame StartSession (Some (uuid_str 2))
              (start_session_request args1 (base_request client0 args1 (uuid_str 1))) in
  f0 ∈ frames (r_obs (synthesize_to_file client0 args0 (world0 abc_server))) /\
  dict_keys (audio_params_of (f_payload f0)) = ["format"; "sample_rate"; "enable_timestamp"] /\
  f1 ∈ frames (r_obs (synthesize_to_file client0 args1 (world0 abc_server))) /\
  dict_get "speech_rate" (audio_params_of (f_payload f1)) = Some (JNum (PInt 10)) /\
  dict_get "loudness_rate" (audio_params_of (f_payload f1)) = None /\
  dict_get "emotion" (audio_params_of (f_payload f1)) = Some (JStr "happy") /\
  dict_get "emotion_scale" (audio_params_of (f_payload f1)) = None.
Proof.
  cbv zeta.
  assert (H0 : mkFrame StartSession (Some (uuid_str 2))
                 (start_session_request args0 (base_request client0 args0 (uuid_str 1)))
               ∈ frames (r_obs (synthesize_to_file client0 args0 (world0 abc_server)))).
  { apply (list_elem_of_lookup_2 _ 1). reflexivity. }
  assert (H1 : mkFrame StartSession (Some (uuid_str 2))
                 (start_session_request args1 (base_request client0 args1 (uuid_str 1)))
               ∈ frames (r_obs (synthesize_to_file client0 args1 (world0 abc_server)))).
  { apply (list_elem_of_lookup_2 _ 1). reflexivity. }
  destruct (start_session_prosody_fields client0 args0 (world0 abc_server) _ H0 eq_refl)
    as (_ & _ & _ & _ & Hkeys).
  destruct (start_session_prosody_fields client0 args1 (world0 abc_server) _ H1 eq_refl)
    as (Hs & Hl & He & Hes & _).
  split; [exact H0|]. split; [exact (Hkeys eq_refl eq_refl eq_refl eq_refl)|].
  split; [exact H1|]. split; [exact Hs|]. split; [exact Hl|]. split; [exact He|exact Hes].
Defined.

Lemma synthesize_opens_with_fresh_headers_witness :
  let r1 := synthesize_to_file client0 args0 (world0 abc_server) in
  let w2 := mkWorld (uuid_ctr (r_world r1)) [abc_server] (conn (r_world r1)) (fs (r_world r1)) in
  uuid_ctr (r_world r1) <= uuid_ctr w2 /\
  exists id1 id2,
    connect_ids (r_obs r1) = [id1] /\
    connect_ids (r_obs (synthesize_to_file client0 args1 w2)) = [id2] /\
    id1 <> id2.
Proof.
  cbv zeta.
  destruct (synthesize_opens_with_fresh_headers client0 args0 (world0 abc_server)
              client0 args1
              (mkWorld
                 (uuid_ctr (r_world (synthesize_to_file client0 args0 (world0 abc_server))))
                 [abc_server]
                 (conn (r_world (synthesize_to_file client0 args0 (world0 abc_server))))
                 (fs (r_world (synthesize_to_file client0 args0 (world0 abc_server))))))
    as (_ & _ & H).
  split; [cbn; lia|]. apply H. cbn. lia.
Defined.

(* ================================================================== *)
(** ** A whole call *)
(* ================================================================== *)

Lemma bind_run {A B} (m : M A) (k : A -> M B) w o w' a :
  m w = mkRun o w' (Returned a) ->
  bind m k w = mkRun (o ++ r_obs (k a w')) (r_world (k a w')) (r_out (k a w')).
Proof. intros H. unfold bind. now rewrite H. Qed.

Lemma ws_send_delivered f ctr pend acc snd inb files :
  Forall (fun o => o = None) snd ->
  ws_send f (mkWorld ctr pend (mkServer acc snd inb) files)
  = mkRun [OSent f] (mkWorld ctr pend (mkServer acc (drop 1 snd) inb) files) (Returned tt).
Proof.
  intros H. unfold ws_send. cbn.
  destruct snd as [|[e|] rest]; [reflexivity| |reflexivity].
  now inversion H.
Qed.

Lemma wait_for_event_passes ty ev noise m rest ctr pend acc snd files :
  forallb (misses ty ev) noise = true ->
  carries ty ev m ->
  wait_for_event ty ev
    (mkWorld ctr pend (mkServer acc snd (map InMsg noise ++ InMsg m :: rest)) files)
  = mkRun (map ORecv (noise ++ [m]))
      (mkWorld ctr pend (mkServer acc snd rest) files) (Returned m).
Proof.
  intros Hn Hm. unfold wait_for_event, while_receive. cbn.
  now rewrite (wait_from_passes _ _ _ _ _ Hn Hm).
Qed.

Lemma receive_audio_passes session sf rest ctr pend acc snd files :
  forallb loop_continues session = true ->
  carries FullServerResponse SessionFinished sf ->
  receive_audio
    (mkWorld ctr pend (mkServer acc snd (map InMsg session ++ InMsg sf :: rest)) files)
  = mkRun (map ORecv (session ++ [sf]))
      (mkWorld ctr pend (mkServer acc snd rest) files) (Returned (collected session)).
Proof.
  intros Hq [Ht He].
  rewrite (receive_audio_run session (InMsg sf :: rest)
             (mkWorld ctr pend (mkServer acc snd (map InMsg session ++ InMsg sf :: rest))
                files) eq_refl Hq).
  cbn [while_receive_from]. unfold receive_audio_body. rewrite Ht, He. cbn.
  now rewrite map_app.
Qed.

Lemma Forall_none_drop k (snd : list (option Exn)) :
  Forall (fun o => o = None) snd -> Forall (fun o => o = None) (drop k snd).
Proof. apply Forall_drop. Qed.

Lemma check_and_save_writes a audio_data w :
  audio_data <> [] ->
  check_and_save a audio_data w
  = mkRun [OLog (LogAudioSaved (output_file a) (length audio_data)
                   (voice_type a) (resource_id a))]
      (mkWorld (uuid_ctr w) (pending w) (conn w) (<[output_file a := audio_data]> (fs w)))
      (Returned tt).
Proof.
  intros Hne. unfold check_and_save. destruct audio_data as [|b bs]; [now destruct Hne|].
  reflexivity.
Qed.

Ltac run_with H :=
  erewrite bind_run;
    [|apply H; first [assumption | repeat apply Forall_none_drop; assumption]];
  cbn [r_obs r_world r_out].

Ltac run_uuid4 :=
  erewrite (bind_run uuid4); [|reflexivity]; cbn [r_obs r_world r_out uuid_ctr pending conn fs].

(** X1: when the server accepts the opening, every send is delivered, and the
    server follows the protocol (whatever else it sends while the client
    waits), the call returns; the output file holds the audio of the session,
    in arrival order; the transport has seen exactly the frames and messages
    of [protocol_trace] and was closed at the end; three uuids were drawn. *)
Theorem synthesize_succeeds self a w s servers
    noise1 cs noise2 ss session sf noise3 cf rest :
  pending w = s :: servers ->
  accept s = None ->
  Forall (fun o => o = None) (sends s) ->
  inbound s = protocol_script noise1 cs noise2 ss session sf noise3 cf rest ->
  forallb (misses FullServerResponse ConnectionStarted) noise1 = true ->
  carries FullServerResponse ConnectionStarted cs ->
  forallb (misses FullServerResponse SessionStarted) noise2 = true ->
  carries FullServerResponse SessionStarted ss ->
  forallb loop_continues session = true ->
  carries FullServerResponse SessionFinished sf ->
  forallb (misses FullServerResponse ConnectionFinished) noise3 = true ->
  carries FullServerResponse ConnectionFinished cf ->
  collected session <> [] ->
  let r := synthesize_to_file self a w in
  r_out r = Returned tt /\
  fs (r_world r) = <[output_file a := collected session]> (fs w) /\
  r_obs r = protocol_trace self a (uuid_ctr w) noise1 cs noise2 ss session sf noise3 cf /\
  inbound (conn (r_world r)) = rest /\
  uuid_ctr (r_world r) = uuid_ctr w + 3.
Proof.
  intros Hp Ha Hs Hi N1 C1 N2 C2 Q C3 N3 C4 Hne r. subst r.
  rewrite synthesize_to_file_unfold, Hp, Ha. cbv zeta.
  destruct w as [ctr pend c files]. destruct s as [acc snd inb].
  cbn in Hp, Ha, Hs, Hi |- *. subst inb acc. unfold protocol_script.
  unfold try_finally, opened. cbn [uuid_ctr fs].
  assert (Hbody :
    steps_2_to_7 self a
      (mkWorld (S ctr) servers
         (mkServer None snd
            (map InMsg noise1 ++ InMsg cs :: map InMsg noise2 ++ InMsg ss
             :: map InMsg session ++ InMsg sf :: map InMsg noise3 ++ InMsg cf :: rest))
         files)
    = mkRun
        ([OSent (mkFrame StartConnection None (JObj []))]
         ++ map ORecv (noise1 ++ [cs])
         ++ [] ++ []
         ++ [OSent (mkFrame StartSession (Some (uuid_str (S (S ctr))))
                      (start_session_request a (base_request self a (uuid_str (S ctr)))))]
         ++ map ORecv (noise2 ++ [ss])
         ++ [OSent (mkFrame TaskRequest (Some (uuid_str (S (S ctr))))
                      (synthesis_request a (base_request self a (uuid_str (S ctr)))))]
         ++ [OSent (mkFrame FinishSession (Some (uuid_str (S (S ctr)))) (JObj []))]
         ++ map ORecv (session ++ [sf])
         ++ [] ++ [OLog (LogAudioSaved (output_file a) (length (collected session))
                          (voice_type a) (resource_id a))])
        (mkWorld (S (S (S ctr))) servers
           (mkServer None (drop 1 (drop 1 (drop 1 (drop 1 snd))))
              (map InMsg noise3 ++ InMsg cf :: rest))
           (<[output_file a := collected session]> files))
        (Returned tt)).
  { assert (H25 :
      steps_2_to_5 self a
        (mkWorld (S ctr) servers
           (mkServer None snd
              (map InMsg noise1 ++ InMsg cs :: map InMsg noise2 ++ InMsg ss
               :: map InMsg session ++ InMsg sf :: map InMsg noise3 ++ InMsg cf :: rest))
           files)
      = mkRun
          ([OSent (mkFrame StartConnection None (JObj []))]
           ++ map ORecv (noise1 ++ [cs])
           ++ [] ++ []
           ++ [OSent (mkFrame StartSession (Some (uuid_str (S (S ctr))))
                        (start_session_request a (base_request self a (uuid_str (S ctr)))))]
           ++ map ORecv (noise2 ++ [ss])
           ++ [OSent (mkFrame TaskRequest (Some (uuid_str (S (S ctr))))
                        (synthesis_request a (base_request self a (uuid_str (S ctr)))))]
           ++ [OSent (mkFrame FinishSession (Some (uuid_str (S (S ctr)))) (JObj []))])
          (mkWorld (S (S (S ctr))) servers
             (mkServer None (drop 1 (drop 1 (drop 1 (drop 1 snd))))
                (map InMsg session ++ InMsg sf :: map InMsg noise3 ++ InMsg cf :: rest))
             files)
          (Returned tt)).
    { unfold steps_2_to_5, start_connection, start_session, task_request, finish_session.
      run_with ws_send_delivered.
      run_with wait_for_event_passes.
      run_uuid4. run_uuid4.
      run_with ws_send_delivered.
      run_with wait_for_event_passes.
      run_with ws_send_delivered.
      rewrite ws_send_delivered by (repeat apply Forall_none_drop; assumption).
      reflexivity. }
    unfold steps_2_to_7.
    erewrite bind_run; [|exact H25]. cbn [r_obs r_world r_out].
    run_with receive_audio_passes.
    rewrite (check_and_save_writes _ _ _ Hne). cbn [r_obs r_world r_out fs uuid_ctr pending conn].
    rewrite <- ?app_assoc. reflexivity. }
  rewrite Hbody. cbn [r_obs r_world r_out].
  assert (Hclean :
    cleanup
      (mkWorld (S (S (S ctr))) servers
         (mkServer None (drop 1 (drop 1 (drop 1 (drop 1 snd))))
            (map InMsg noise3 ++ InMsg cf :: rest))
         (<[output_file a := collected session]> files))
    = mkRun
        ([OSent finish_frame] ++ map ORecv (noise3 ++ [cf]) ++ [OClosed] ++ [OLog LogConnectionClosed])
        (mkWorld (S (S (S ctr))) servers
           (mkServer None (drop 1 (drop 1 (drop 1 (drop 1 (drop 1 snd))))) rest)
           (<[output_file a := collected session]> files))
        (Returned tt)).
  { unfold cleanup, finish_connection. fold finish_frame.
    erewrite (bind_run (ws_send _));
      [|apply ws_send_delivered; repeat apply Forall_none_drop; assumption].
    cbn [r_obs r_world r_out].
    run_with wait_for_event_passes.
    unfold bind, ws_close, logger_info, emit. cbn. reflexivity. }
  rewrite Hclean. cbn [r_obs r_world r_out uuid_ctr fs conn inbound].
  split; [reflexivity|]. split; [reflexivity|]. split.
  - unfold protocol_trace, opening_obs. cbv zeta.
    repeat (cbn [app]; rewrite <- app_assoc). reflexivity.
  - split; [reflexivity|lia].
Qed.

Lemma synthesize_succeeds_witness :
  r_out (synthesize_to_file client0 args0 (world0 abc_server)) = Returned tt /\
  fs (r_world (synthesize_to_file client0 args0 (world0 abc_server)))
  = <[output_file args0 := [x41; x42; x43]]> ∅.
Proof.
  assert (Hne : collected [audio [x41]; audio [x42]; audio [x43]] <> []) by discriminate.
  destruct (synthesize_succeeds client0 args0 (world0 abc_server) abc_server []
              [] (fsr ConnectionStarted) [] (fsr SessionStarted)
              [audio [x41]; audio [x42]; audio [x43]] (fsr SessionFinished)
              [] (fsr ConnectionFinished) []
              eq_refl eq_refl (Forall_nil_2 _) eq_refl
              eq_refl (conj eq_refl eq_refl) eq_refl (conj eq_refl eq_refl)
              eq_refl (conj eq_refl eq_refl) eq_refl (conj eq_refl eq_refl) Hne)
    as (Hout & Hfs & _).
  split; [exact Hout|exact Hfs].
Defined.

Lemma emits_steps_2_to_7 self a :
  emits [StartConnection; StartSession; TaskRequest; FinishSession] (steps_2_to_7 self a).
Proof.
  unfold steps_2_to_7.
  eapply emits_bind; [apply emits_steps_2_to_5| |symmetry; apply app_nil_r].
  intros _. eapply emits_bind; [apply emits_receive_audio| |reflexivity].
  intros audio_data. unfold check_and_save. destruct audio_data; emits_auto.
Qed.

(** X2: the frames of a call go out in protocol order, each at most once.
    A call that does not open the transport sends nothing.  A call that opens
    it sends an initial part of [StartConnection], [StartSession],
    [TaskRequest], [FinishSession] (all four when steps 2 to 7 return) and
    then, once, [FinishConnection]. *)
Theorem frames_in_protocol_order self a w :
  match body_outcome self a w with
  | None => events (synthesize_to_file self a w) = []
  | Some out =>
      exists sent,
        events (synthesize_to_file self a w) = sent ++ [FinishConnection] /\
        sent `prefix_of` [StartConnection; StartSession; TaskRequest; FinishSession] /\
        match out with
        | Returned _ => sent = [StartConnection; StartSession; TaskRequest; FinishSession]
        | Raised _ _ => True
        end
  end.
Proof.
  unfold body_outcome.
  destruct (pending w) as [|s rest] eqn:Hp.
  { rewrite synthesize_to_file_unfold, Hp. reflexivity. }
  destruct (accept s) as [e|] eqn:Ha.
  { rewrite synthesize_to_file_unfold, Hp, Ha. reflexivity. }
  destruct (opened_run self a w s rest Hp Ha) as (Hobs & _ & _).
  exists (events (steps_2_to_7 self a (opened w s rest))).
  split.
  - unfold events at 1. rewrite Hobs, !frames_app.
    change (frames (OLog LogConnected :: ?l)) with (frames l).
    rewrite !map_app.
    fold (events (cleanup (r_world (steps_2_to_7 self a (opened w s rest))))).
    now rewrite events_cleanup.
  - pose proof (emits_steps_2_to_7 self a (opened w s rest)) as H.
    destruct (r_out (steps_2_to_7 self a (opened w s rest))) as [u|e c].
    + split; [now rewrite H|exact H].
    + split; [exact H|exact I].
Qed.

Lemma synthesize_task_request_ok self a :
  obs_all (task_request_ok self a) (synthesize_to_file self a).
Proof.
  unfold_client. obs_auto;
    try apply obs_all_check_and_save; intros; intros f Hf Hev;
    try discriminate Hf; injection Hf as <-; try discriminate Hev.
  all: eexists; reflexivity.
Qed.

(** X3: the [TaskRequest] frame of a call carries the whole text under
    [req_params.text], the speaker, and, under [req_params.audio_params],
    the three base fields and nothing else: the prosody fields that were put
    into the start-session request are not in it, because each request is a
    copy of its own of the base request. *)
Theorem task_request_payload self a w f :
  f ∈ frames (r_obs (synthesize_to_file self a w)) ->
  f_event f = TaskRequest ->
  obj_get "event" (f_payload f) = Some (JEvent TaskRequest) /\
  obj_get2 "req_params" "text" (f_payload f) = Some (JStr (text a)) /\
  obj_get2 "req_params" "speaker" (f_payload f) = Some (JStr (voice_type a)) /\
  audio_params_of (f_payload f)
  = [ ("format", JStr (encoding a));
      ("sample_rate", JNum (PInt (sample_rate self)));
      ("enable_timestamp", JBool true) ].
Proof.
  intros Hin Hev.
  unfold frames in Hin. apply list_elem_of_omap in Hin as (o & Ho & Hf).
  pose proof (synthesize_task_request_ok self a w) as Hall.
  rewrite Forall_forall in Hall.
  destruct (Hall o Ho f Hf Hev) as [uid ->].
  repeat split; reflexivity.
Qed.

Lemma task_request_payload_witness :
  let f := mkFrame TaskRequest (Some (uuid_str 2))
             (synthesis_request args1 (base_request client0 args1 (uuid_str 1))) in
  f ∈ frames (r_obs (synthesize_to_file client0 args1 (world0 abc_server))) /\
  obj_get2 "req_params" "text" (f_payload f) = Some (JStr "hello") /\
  dict_keys (audio_params_of (f_payload f)) = ["format"; "sample_rate"; "enable_timestamp"].
Proof.
  cbv zeta.
  assert (H : mkFrame TaskRequest (Some (uuid_str 2))
                (synthesis_request args1 (base_request client0 args1 (uuid_str 1)))
              ∈ frames (r_obs (synthesize_to_file client0 args1 (world0 abc_server)))).
  { apply (list_elem_of_lookup_2 _ 2). reflexivity. }
  destruct (task_request_payload client0 args1 (world0 abc_server) _ H eq_refl)
    as (_ & Ht & _ & Hap).
  split; [exact H|]. split; [exact Ht|]. now rewrite Hap.
Defined.

(* ================================================================== *)
(** ** What the segment loop of [main] leaves behind *)
(* ================================================================== *)

Lemma generate_segment_run self cli output_dir n i item audio_files w :
  generate_segment self cli output_dir n i item audio_files w
  = mkRun [ OLog (LogGenerating (i + 1) n (item_speaker item));
            OLog (LogTtsFailed i (UnexpectedKeyword "pitch_rate")) ]
      w (Returned audio_files).
Proof. reflexivity. Qed.

(** X4: the segment loop of [main] synthesises nothing.  It returns, in
    order, exactly the segment files that were on disk before it started
    (after the files it was given); for every other segment it logs the
    announcement and the [TypeError] of the call; it opens no connection,
    sends no frame, draws no uuid and leaves the file system as it was. *)
Theorem segments_loop_collects_existing self cli output_dir n items :
  forall i audio_files w,
    segments_loop self cli output_dir n i items audio_files w
    = mkRun (segment_failures (fs w) output_dir n i items) w
        (Returned (audio_files ++ segments_on_disk (fs w) output_dir i items)).
Proof.
  induction items as [|item items IH]; intros i audio_files w;
    cbn [segments_loop segments_on_disk segment_failures].
  - unfold ret. now rewrite app_nil_r.
  - unfold bind at 1. unfold path_exists. cbn [r_out r_obs r_world].
    destruct (bool_decide (is_Some (fs w !! segment_file output_dir i (item_speaker item)))).
    + rewrite IH. cbn [r_out r_obs r_world app]. now rewrite <- app_assoc.
    + unfold bind. rewrite generate_segment_run. cbn [r_out r_obs r_world].
      rewrite IH. reflexivity.
Qed.

(* ================================================================== *)
(** ** The voices of the speakers *)
(* ================================================================== *)

Lemma get_voice_new self speaker :
  voice_mapping self !! speaker = None ->
  default_voices self <> [] ->
  exists voice_id,
    default_voices self
      !! (size (voice_mapping self) mod length (default_voices self)) = Some voice_id /\
    get_voice_for_speaker self speaker
    = inr (voice_id,
           mkToNlpTexts (<[speaker := voice_id]> (voice_mapping self)) (default_voices self)).
Proof.
  intros Hn Hd. unfold get_voice_for_speaker. rewrite Hn.
  destruct (default_voices self) as [|d ds] eqn:E; [now destruct Hd|].
  cbn [length].
  destruct ((d :: ds) !! (size (voice_mapping self) mod S (length ds))) as [v|] eqn:Hl.
  - exists v. split; reflexivity.
  - apply lookup_ge_None in Hl. cbn [length] in Hl.
    pose proof (Nat.mod_upper_bound (size (voice_mapping self)) (S (length ds))). lia.
Qed.

(** X5: a voice, once given, stays.  When [get_voice_for_speaker] returns a
    voice for a speaker, the speaker has that voice in the mapping
    afterwards, every speaker known before keeps the voice it had, no other
    speaker is touched, and asking again gives the same voice and changes
    nothing. *)
Theorem get_voice_for_speaker_stable self speaker voice_id self' :
  get_voice_for_speaker self speaker = inr (voice_id, self') ->
  voice_mapping self' !! speaker = Some voice_id /\
  (forall s v, voice_mapping self !! s = Some v -> voice_mapping self' !! s = Some v) /\
  (forall s, s <> speaker -> voice_mapping self' !! s = voice_mapping self !! s) /\
  default_voices self' = default_voices self /\
  get_voice_for_speaker self' speaker = inr (voice_id, self').
Proof.
  unfold get_voice_for_speaker at 1.
  destruct (voice_mapping self !! speaker) as [v|] eqn:Hk.
  - intros [= <- <-]. repeat split; auto.
    unfold get_voice_for_speaker. now rewrite Hk.
  - destruct (length (default_voices self)) as [|k] eqn:El; [discriminate|].
    destruct (default_voices self !! _) as [v|] eqn:Hl; [|discriminate].
    intros [= <- <-]. cbn.
    split; [apply lookup_insert_eq|]. split; [|split; [|split]].
    + intros s v' Hs. destruct (decide (speaker = s)) as [->|Hne]; [congruence|].
      now rewrite lookup_insert_ne.
    + intros s Hne. now rewrite lookup_insert_ne.
    + reflexivity.
    + unfold get_voice_for_speaker. cbn. now rewrite lookup_insert_eq.
Qed.

Lemma get_voice_for_speaker_stable_witness :
  get_voice_for_speaker ToNlpTexts_init "小星" = inr ("S_1GQLaTPI1", ToNlpTexts_init) /\
  voice_mapping ToNlpTexts_init !! "小星" = Some "S_1GQLaTPI1".
Proof.
  assert (H : get_voice_for_speaker ToNlpTexts_init "小星"
              = inr ("S_1GQLaTPI1", ToNlpTexts_init)) by reflexivity.
  destruct (get_voice_for_speaker_stable ToNlpTexts_init "小星" _ _ H) as (Hm & _).
  split; [exact H|exact Hm].
Defined.

(** X6: new speakers get the default voices in turn.  With at least one
    default voice, a speaker that is not in the mapping gets the default
    voice at index [len(voice_mapping) % len(default_voices)] and the mapping
    grows by one.  Two different new speakers, one after the other, get the
    voices at two consecutive indices (modulo the number of default voices),
    which are two different voices when there are at least two default voices
    and no voice is listed twice. *)
Theorem get_voice_for_speaker_round_robin self speaker1 speaker2 :
  default_voices self <> [] ->
  voice_mapping self !! speaker1 = None ->
  voice_mapping self !! speaker2 = None ->
  speaker1 <> speaker2 ->
  let k := length (default_voices self) in
  let n := size (voice_mapping self) in
  exists voice1 voice2 self1 self2,
    get_voice_for_speaker self speaker1 = inr (voice1, self1) /\
    get_voice_for_speaker self1 speaker2 = inr (voice2, self2) /\
    default_voices self !! (n mod k) = Some voice1 /\
    default_voices self !! (S n mod k) = Some voice2 /\
    size (voice_mapping self1) = S n /\
    size (voice_mapping self2) = S (S n) /\
    (2 <= k -> NoDup (default_voices self) -> voice1 <> voice2).
Proof.
  intros Hd H1 H2 Hne k n.
  destruct (get_voice_new self speaker1 H1 Hd) as (v1 & Hl1 & E1).
  set (self1 := mkToNlpTexts (<[speaker1 := v1]> (voice_mapping self)) (default_voices self)).
  assert (H2' : voice_mapping self1 !! speaker2 = None).
  { cbn. now rewrite lookup_insert_ne. }
  assert (Hs1 : size (voice_mapping self1) = S n).
  { cbn. now rewrite map_size_insert_None. }
  destruct (get_voice_new self1 speaker2 H2' Hd) as (v2 & Hl2 & E2).
  cbn [default_voices self1] in Hl2, E2. rewrite Hs1 in Hl2. fold k in Hl1, Hl2. fold n in Hl1.
  exists v1, v2, self1,
    (mkToNlpTexts (<[speaker2 := v2]> (voice_mapping self1)) (default_voices self1)).
  split; [exact E1|]. split; [exact E2|].
  split; [exact Hl1|]. split; [exact Hl2|]. split; [exact Hs1|]. split.
  - cbn. rewrite map_size_insert_None; [now f_equal|exact H2'].
  - intros Hk Hnd Heq. subst v2.
    pose proof (NoDup_lookup _ _ _ _ Hnd Hl1 Hl2) as Hidx.
    assert (Hk0 : k <> 0) by lia.
    assert (Hstep : S n mod k = (n mod k + 1) mod k).
    { rewrite <- Nat.add_1_r. now rewrite Nat.Div0.add_mod_idemp_l. }
    pose proof (Nat.mod_upper_bound n k Hk0) as Hb.
    destruct (decide (n mod k + 1 = k)) as [Hw|Hw].
    + rewrite Hstep, Hw, Nat.Div0.mod_same in Hidx. lia.
    + rewrite Hstep, (Nat.mod_small (n mod k + 1) k) in Hidx by lia. lia.
Qed.

Lemma get_voice_for_speaker_round_robin_witness :
  exists self1 self2,
    get_voice_for_speaker ToNlpTexts_init "a"
    = inr ("zh_female_mizaitongxue_v2_saturn_bigtts", self1) /\
    get_voice_for_speaker self1 "b"
    = inr ("zh_male_dayixiansheng_v2_saturn_bigtts", self2).
Proof.
  assert (Hd : default_voices ToNlpTexts_init <> []) by discriminate.
  assert (Hne : "a" <> "b") by discriminate.
  destruct (get_voice_for_speaker_round_robin ToNlpTexts_init "a" "b" Hd eq_refl eq_refl Hne)
    as (v1 & v2 & self1 & self2 & E1 & E2 & L1 & L2 & _).
  exists self1, self2.
  assert (Hs : size (voice_mapping ToNlpTexts_init) = 2) by (vm_compute; reflexivity).
  rewrite Hs in L1, L2. cbn in L1, L2.
  injection L1 as <-. injection L2 as <-. split; [exact E1|exact E2].
Defined.

(** X7: the only way [get_voice_for_speaker] fails is a new speaker with an
    empty list of default voices, which raises [ZeroDivisionError]; the index
    it computes is always within the list, so it never raises [IndexError],
    and a known speaker gets its voice whatever the default voices are. *)
Theorem get_voice_for_speaker_errors self speaker :
  get_voice_for_speaker self speaker <> inl IndexError /\
  (get_voice_for_speaker self speaker = inl ZeroDivisionError <->
   voice_mapping self !! speaker = None /\ default_voices self = []) /\
  (forall v, voice_mapping self !! speaker = Some v ->
             get_voice_for_speaker self speaker = inr (v, self)).
Proof.
  split; [|split].
  - destruct (voice_mapping self !! speaker) as [v|] eqn:Hk.
    + unfold get_voice_for_speaker. rewrite Hk. discriminate.
    + destruct (default_voices self) as [|d ds] eqn:E.
      * unfold get_voice_for_speaker. rewrite Hk, E. discriminate.
      * assert (Hd : default_voices self <> []) by (rewrite E; discriminate).
        destruct (get_voice_new self speaker Hk Hd) as (v & _ & ->). discriminate.
  - split.
    + unfold get_voice_for_speaker.
      destruct (voice_mapping self !! speaker) as [v|]; [discriminate|].
      destruct (default_voices self) as [|d ds] eqn:E; [auto|].
      cbn [length]. destruct (_ !! _); discriminate.
    + intros [Hk E]. unfold get_voice_for_speaker. now rewrite Hk, E.
  - intros v Hk. unfold get_voice_for_speaker. now rewrite Hk.
Qed.

Lemma get_voice_for_speaker_errors_witness :
  get_voice_for_speaker (mkToNlpTexts {[ "a" := "v" ]} []) "a"
  = inr ("v", mkToNlpTexts {[ "a" := "v" ]} []) /\
  get_voice_for_speaker (mkToNlpTexts {[ "a" := "v" ]} []) "b" = inl ZeroDivisionError.
Proof.
  destruct (get_voice_for_speaker_errors (mkToNlpTexts {[ "a" := "v" ]} []) "a")
    as (_ & _ & Hk).
  destruct (get_voice_for_speaker_errors (mkToNlpTexts {[ "a" := "v" ]} []) "b")
    as (_ & Hz & _).
  split.
  - apply Hk. vm_compute. reflexivity.
  - apply Hz. split; [vm_compute; reflexivity|reflexivity].
Defined.

(* ================================================================== *)
(** ** Merging the segments *)
(* ================================================================== *)

Lemma merge_into_app flushed files output_file audio_files : forall written,
  output_file ∉ audio_files ->
  all_readable files audio_files ->
  merge_into flushed files output_file audio_files written
  = (written ++ concat (omap (contents files) audio_files), true).
Proof.
  induction audio_files as [|p rest IH]; intros written Hout Hall.
  - cbn. now rewrite app_nil_r.
  - apply not_elem_of_cons in Hout as [Hne Hout].
    apply Forall_cons in Hall as [Hp Hall].
    cbn [merge_into omap list_omap]. unfold read_during_merge, contents at 1.
    rewrite bool_decide_eq_false_2 by congruence.
    destruct (files !! p) as [[data|]|]; [| congruence |]; rewrite (IH _ Hout Hall).
    + cbn [concat]. now rewrite app_assoc.
    + reflexivity.
Qed.

Lemma merge_into_stops flushed files output_file before bad rest : forall written,
  output_file ∉ before ->
  all_readable files before ->
  bad <> output_file ->
  files !! bad = Some Unreadable ->
  merge_into flushed files output_file (before ++ bad :: rest) written
  = (written ++ concat (omap (contents files) before), false).
Proof.
  induction before as [|p before IH]; intros written Hout Hall Hne Hbad.
  - cbn [app merge_into]. unfold read_during_merge.
    rewrite bool_decide_eq_false_2 by exact Hne. rewrite Hbad. cbn.
    now rewrite app_nil_r.
  - apply not_elem_of_cons in Hout as [Hp' Hout].
    apply Forall_cons in Hall as [Hp Hall].
    cbn [app merge_into omap list_omap]. unfold read_during_merge, contents at 1.
    rewrite bool_decide_eq_false_2 by congruence.
    destruct (files !! p) as [[data|]|]; [| congruence |];
      rewrite (IH _ Hout Hall Hne Hbad).
    + cbn [concat]. now rewrite app_assoc.
    + reflexivity.
Qed.

(** A loop that ran to its end met no input that it could not read. *)
Lemma merge_into_completed flushed files output_file audio_files : forall written,
  output_file ∉ audio_files ->
  (merge_into flushed files output_file audio_files written).2 = true ->
  all_readable files audio_files.
Proof.
  induction audio_files as [|p rest IH]; intros written Hout Hc.
  - apply Forall_nil_2.
  - apply not_elem_of_cons in Hout as [Hne Hout].
    cbn [merge_into] in Hc. unfold read_during_merge in Hc.
    rewrite bool_decide_eq_false_2 in Hc by congruence.
    apply Forall_cons.
    destruct (files !! p) as [[data|]|]; [| discriminate Hc |].
    + split; [discriminate|]. exact (IH _ Hout Hc).
    + split; [discriminate|]. exact (IH _ Hout Hc).
Qed.

(** X8: [simple_merge_audio_files] when the output file is not one of the
    inputs.  It returns [True] exactly when the output file can be opened for
    writing and no input that exists fails to be read; the output file then
    holds the contents of the inputs that exist, one after the other in the
    order of the list, an input that is listed twice being taken twice and
    one that does not exist being skipped.  When the output file cannot be
    opened, it returns [False] and touches nothing.  When an input cannot be
    read, it returns [False] and leaves in the output file the contents of
    the inputs before the first such input.  In every case, every other file
    is as it was. *)
Theorem simple_merge_concatenates flushed can_write files audio_files output_file :
  output_file ∉ audio_files ->
  let r := simple_merge_audio_files flushed can_write files audio_files output_file in
  (r.1 = true <-> can_write output_file = true /\ all_readable files audio_files) /\
  (r.1 = true ->
   r.2 = <[output_file := Regular (concat (omap (contents files) audio_files))]> files) /\
  (can_write output_file = false -> r = (false, files)) /\
  (forall before bad rest,
     can_write output_file = true ->
     audio_files = before ++ bad :: rest ->
     all_readable files before ->
     files !! bad = Some Unreadable ->
     r = (false, <[output_file := Regular (concat (omap (contents files) before))]> files)) /\
  (forall p, p <> output_file -> r.2 !! p = files !! p).
Proof.
  intros Hout r. subst r. unfold simple_merge_audio_files.
  destruct (can_write output_file) eqn:Hw.
  - assert (Hiff : (merge_into flushed files output_file audio_files []).2 = true
                   <-> all_readable files audio_files).
    { split; [apply merge_into_completed, Hout|].
      intros Hall. now rewrite (merge_into_app _ _ _ _ [] Hout Hall). }
    split; [|split; [|split; [|split]]].
    + destruct (merge_into flushed files output_file audio_files []) as [written c].
      cbn [fst snd] in *. rewrite Hiff. tauto.
    + intros Hc.
      assert (Hall : all_readable files audio_files).
      { apply Hiff. now destruct (merge_into flushed files output_file audio_files []). }
      now rewrite (merge_into_app _ _ _ _ [] Hout Hall).
    + discriminate.
    + intros before bad rest _ -> Hall Hbad.
      apply not_elem_of_app in Hout as [Hb Hbr].
      apply not_elem_of_cons in Hbr as [Hne _].
      rewrite (merge_into_stops _ _ _ _ _ _ [] Hb Hall); [reflexivity|congruence|exact Hbad].
    + intros p Hp.
      destruct (merge_into flushed files output_file audio_files []) as [written c].
      cbn [snd]. now rewrite lookup_insert_ne.
  - split; [|split; [|split; [|split]]]; cbn [fst snd].
    + split; [discriminate|]. intros [H _]. discriminate H.
    + discriminate.
    + reflexivity.
    + discriminate.
    + reflexivity.
Qed.

Lemma simple_merge_concatenates_witness :
  let files : gmap string Node :=
    {[ "a.mp3" := Regular [x41; x42]; "c.mp3" := Regular [x43]; "d" := Unreadable ]} in
  simple_merge_audio_files (fun _ => 0) (fun _ => true) files
    ["a.mp3"; "b.mp3"; "c.mp3"; "a.mp3"] "out.mp3"
  = (true, <[ "out.mp3" := Regular [x41; x42; x43; x41; x42] ]> files) /\
  simple_merge_audio_files (fun _ => 0) (fun _ => true) files
    ["a.mp3"; "d"; "c.mp3"] "out.mp3"
  = (false, <[ "out.mp3" := Regular [x41; x42] ]> files) /\
  simple_merge_audio_files (fun _ => 0) (fun _ => false) files
    ["a.mp3"; "c.mp3"] "out.mp3"
  = (false, files).
Proof.
  cbv zeta.
  set (files := ({[ "a.mp3" := Regular [x41; x42]; "c.mp3" := Regular [x43];
                    "d" := Unreadable ]} : gmap string Node)).
  assert (Hout : forall l, Forall (fun p => p <> "out.mp3") l -> "out.mp3" ∉ l).
  { intros l Hl Hin. rewrite Forall_forall in Hl. now apply (Hl _ Hin). }
  split; [|split].
  - destruct (simple_merge_concatenates (fun _ => 0) (fun _ => true) files
                ["a.mp3"; "b.mp3"; "c.mp3"; "a.mp3"] "out.mp3")
      as (Hiff & Hfile & _).
    { apply Hout. repeat constructor; discriminate. }
    assert (Ht : (simple_merge_audio_files (fun _ => 0) (fun _ => true) files
                    ["a.mp3"; "b.mp3"; "c.mp3"; "a.mp3"] "out.mp3").1 = true).
    { apply Hiff. split; [reflexivity|].
      repeat constructor; vm_compute; discriminate. }
    specialize (Hfile Ht).
    destruct (simple_merge_audio_files _ _ files _ _) as [b fs'].
    cbn [fst snd] in *. subst b fs'. f_equal.
  - destruct (simple_merge_concatenates (fun _ => 0) (fun _ => true) files
                ["a.mp3"; "d"; "c.mp3"] "out.mp3")
      as (_ & _ & _ & Hbad & _).
    { apply Hout. repeat constructor; discriminate. }
    rewrite (Hbad ["a.mp3"] "d" ["c.mp3"] eq_refl eq_refl).
    + f_equal.
    + repeat constructor; vm_compute; discriminate.
    + vm_compute. reflexivity.
  - destruct (simple_merge_concatenates (fun _ => 0) (fun _ => false) files
                ["a.mp3"; "c.mp3"] "out.mp3")
      as (_ & _ & Hno & _).
    { apply Hout. repeat constructor; discriminate. }
    exact (Hno eq_refl).
Defined.

(* ================================================================== *)
(** ** The default voices of the role table *)
(* ================================================================== *)

Lemma fill_voice_fixed name vt :
  let voice := if String.eqb vt "" then default vt (role_defaults !! name) else vt in
  (if String.eqb voice "" then default voice (role_defaults !! name) else voice) = voice.
Proof.
  cbv zeta. destruct (String.eqb vt "") eqn:Ev.
  - apply String.eqb_eq in Ev. subst vt.
    destruct (String.eqb (default "" (role_defaults !! name)) "") eqn:Ed; [|reflexivity].
    apply String.eqb_eq in Ed. now rewrite !Ed.
  - now rewrite Ev.
Qed.

Lemma fill_row_fixed row row' : fill_row row = inr row' -> fill_row row' = inr row'.
Proof.
  destruct row as [|name columns]; [discriminate|]. cbn. intros [= <-].
  cbn [fill_row]. now rewrite fill_voice_fixed.
Qed.

Lemma fill_defaults_some rows : fill_defaults (Some rows) = fill_rows rows.
Proof. reflexivity. Qed.

(** X9: on a table in which every row has at least one column,
    [fill_defaults] returns a table with as many rows, each of exactly two
    columns: the name of the row, and its voice, which is the voice the row
    had when that was not empty.  Filling is idempotent: on its own output
    it returns that output. *)
Theorem fill_defaults_idempotent rows out :
  fill_defaults (Some rows) = inr out ->
  length out = length rows /\
  Forall2 (fun row row' =>
             exists name voice,
               head row = Some name /\ row' = [name; voice] /\
               (forall v, row !! 1 = Some v -> v <> "" -> voice = v))
          rows out /\
  fill_defaults (Some out) = inr out.
Proof.
  rewrite !fill_defaults_some. revert out.
  induction rows as [|row rows IH]; intros out; cbn [fill_rows].
  - intros [= <-]. repeat split; constructor.
  - destruct (fill_row row) as [e|row'] eqn:Er; cbv iota beta;
      [intros H; discriminate H|].
    destruct (fill_rows rows) as [e|out'] eqn:Es; cbv iota beta;
      [intros H; discriminate H|].
    intros [= <-]. destruct (IH out' eq_refl) as (Hl & Hf & Hi).
    split; [cbn; now rewrite Hl|]. split.
    + constructor; [|exact Hf].
      destruct row as [|name columns]; [discriminate|]. cbn in Er. injection Er as <-.
      eexists name, _. split; [reflexivity|]. split; [reflexivity|].
      intros v Hv Hne. destruct columns as [|v' rest]; [discriminate|].
      cbn in Hv. injection Hv as ->.
      destruct (String.eqb v "") eqn:E; [|reflexivity].
      apply String.eqb_eq in E. contradiction.
    + cbn [fill_rows]. now rewrite (fill_row_fixed _ _ Er), Hi.
Qed.

Lemma fill_defaults_idempotent_witness :
  fill_defaults (Some [["侍卫"]; ["x"; "my_voice"; "extra"]; ["y"; ""]])
  = inr [["侍卫"; "zh_male_taocheng_uranus_bigtts"]; ["x"; "my_voice"]; ["y"; ""]] /\
  fill_defaults (Some [["侍卫"; "zh_male_taocheng_uranus_bigtts"]; ["x"; "my_voice"]; ["y"; ""]])
  = inr [["侍卫"; "zh_male_taocheng_uranus_bigtts"]; ["x"; "my_voice"]; ["y"; ""]].
Proof.
  assert (H : fill_defaults (Some [["侍卫"]; ["x"; "my_voice"; "extra"]; ["y"; ""]])
              = inr [["侍卫"; "zh_male_taocheng_uranus_bigtts"]; ["x"; "my_voice"]; ["y"; ""]])
    by (vm_compute; reflexivity).
  destruct (fill_defaults_idempotent _ _ H) as (_ & _ & Hi).
  split; [exact H|exact Hi].
Defined.

(** X10: [fill_defaults] fails exactly when some row of the table is empty,
    and then with [IndexError]; a missing table ([None]) is an empty
    table. *)
Theorem fill_defaults_index_error rows :
  fill_defaults None = inr [] /\
  (fill_defaults (Some rows) = inl IndexError <-> [] ∈ rows) /\
  ([] ∉ rows -> exists out, fill_defaults (Some rows) = inr out).
Proof.
  split; [reflexivity|]. rewrite !fill_defaults_some.
  induction rows as [|row rows [IH1 IH2]]; cbn [fill_rows].
  - split; [split; [discriminate|]|].
    + intros H. now apply elem_of_nil in H.
    + intros _. now exists [].
  - destruct row as [|name columns]; cbn [fill_row].
    + split; [split; [intros _; left|reflexivity]|].
      intros H. destruct H. left.
    + split; [split|].
      * destruct (fill_rows rows) as [e|out]; [|discriminate].
        intros H. right. apply IH1. exact H.
      * intros H. apply elem_of_cons in H as [H|H]; [discriminate H|].
        apply IH1 in H. now rewrite H.
      * intros H. apply not_elem_of_cons in H as [_ H].
        destruct (IH2 H) as [out ->]. eauto.
Qed.

Lemma fill_defaults_index_error_witness :
  fill_defaults (Some [["a"; "v"]; []]) = inl IndexError /\
  exists out, fill_defaults (Some [["a"; "v"]]) = inr out.
Proof.
  destruct (fill_defaults_index_error [["a"; "v"]; []]) as (_ & H1 & _).
  destruct (fill_defaults_index_error [["a"; "v"]]) as (_ & _ & H2).
  split.
  - apply H1. right. left.
  - apply H2. intros H. apply elem_of_cons in H as [H|H]; [discriminate H|].
    now apply elem_of_nil in H.
Defined.

(* ================================================================== *)
(** ** Cleaning the scene markers *)
(* ================================================================== *)

Lemma split_at_first_some c text inside after :
  split_at_first c text = Some (inside, after) -> text = inside ++ c :: after.
Proof.
  revert inside. induction text as [|x rest IH]; intros inside; cbn; [discriminate|].
  destruct (N.eqb x c) eqn:E.
  - apply N.eqb_eq in E. intros [= <- <-]. now subst.
  - destruct (split_at_first c rest) as [[i a]|]; [|discriminate].
    intros [= <- <-]. cbn. f_equal. now apply IH.
Qed.

Lemma split_at_first_none c text : split_at_first c text = None -> c ∉ text.
Proof.
  induction text as [|x rest IH]; cbn; [intros _; apply not_elem_of_nil|].
  destruct (N.eqb x c) eqn:E; [discriminate|].
  apply N.eqb_neq in E.
  destruct (split_at_first c rest) as [[i a]|]; [discriminate|].
  intros _. apply not_elem_of_cons. split; [congruence|now apply IH].
Qed.

Lemma group_at_some o c sel text after :
  group_at o c sel text = Some after ->
  exists inside, text = o :: inside ++ c :: after.
Proof.
  destruct text as [|x rest]; cbn; [discriminate|].
  destruct (N.eqb x o) eqn:E; [|discriminate]. apply N.eqb_eq in E. subst x.
  destruct (split_at_first c rest) as [[inside a]|] eqn:Es; [|discriminate].
  destruct (sel inside); [|discriminate]. intros [= <-].
  exists inside. f_equal. now apply split_at_first_some.
Qed.

(** The scan, one step at a time. *)
Lemma re_sub_group_cons o c sel x rest :
  re_sub_group o c sel (x :: rest)
  = match group_at o c sel (x :: rest) with
    | Some after => re_sub_group o c sel after
    | None => x :: re_sub_group o c sel rest
    end.
Proof.
  rewrite re_sub_group_equation_2. unfold inspect.
  generalize (@eq_refl _ (group_at o c sel (x :: rest))).
  generalize (group_at o c sel (x :: rest)) at 2 4 5.
  intros [after|] E; reflexivity.
Qed.

(** Facts about the scan are proved by induction on the length of the text:
    after a match the scan goes on with a shorter text. *)
Lemma re_sub_group_ind (o c : N) (sel : pystr -> bool) (P : pystr -> Prop) :
  P [] ->
  (forall x rest inside after,
     x = o -> rest = inside ++ c :: after ->
     group_at o c sel (x :: rest) = Some after -> P after -> P (x :: rest)) ->
  (forall x rest, group_at o c sel (x :: rest) = None -> P rest -> P (x :: rest)) ->
  forall text, P text.
Proof.
  intros Hnil Hsome Hnone text.
  remember (length text) as n eqn:Hn. revert text Hn.
  induction n as [n IH] using lt_wf_ind. intros [|x rest] Hn; [exact Hnil|].
  destruct (group_at o c sel (x :: rest)) as [after|] eqn:E.
  - destruct (group_at_some _ _ _ _ _ E) as (inside & Hi). injection Hi as -> ->.
    eapply Hsome; [reflexivity|reflexivity|exact E|].
    apply (IH (length after)); [|reflexivity].
    subst n. cbn. rewrite length_app. cbn. lia.
  - apply Hnone; [exact E|]. apply (IH (length rest)); [|reflexivity].
    subst n. cbn. lia.
Qed.

Lemma re_sub_group_sublist o c sel text : re_sub_group o c sel text `sublist_of` text.
Proof.
  induction text as [|x rest inside after -> -> E IH|x rest E IH]
    using (re_sub_group_ind o c sel).
  - now rewrite re_sub_group_equation_1.
  - rewrite re_sub_group_cons, E.
    apply sublist_cons. apply sublist_inserts_l. now apply sublist_cons.
  - rewrite re_sub_group_cons, E. now apply sublist_skip.
Qed.

(** After the scan for [o [^c]* c], no [o] is left with a [c] anywhere
    after it. *)
Lemma re_sub_group_no_pair o c text :
  ~ [o; c] `sublist_of` re_sub_group o c (fun _ => true) text.
Proof.
  induction text as [|x rest inside after -> -> E IH|x rest E IH]
    using (re_sub_group_ind o c (fun _ => true)).
  - rewrite re_sub_group_equation_1. intros H. apply sublist_nil_r in H. discriminate H.
  - now rewrite re_sub_group_cons, E.
  - rewrite re_sub_group_cons, E. intros H.
    apply sublist_cons_r in H as [H|(l' & Hl & H)]; [now apply IH|].
    injection Hl as <- <-. apply singleton_sublist_l in H.
    pose proof (elem_of_sublist _ _ _ H (re_sub_group_sublist o c _ rest)) as Hc.
    cbn in E. rewrite N.eqb_refl in E.
    destruct (split_at_first c rest) as [[i a]|] eqn:Es; [discriminate|].
    now apply split_at_first_none in Es.
Qed.

Lemma re_sub_group_untouched o c sel text : o ∉ text -> re_sub_group o c sel text = text.
Proof.
  induction text as [|x rest IH]; intros Ho.
  - now rewrite re_sub_group_equation_1.
  - apply not_elem_of_cons in Ho as [Hx Ho].
    rewrite re_sub_group_cons. cbn.
    destruct (N.eqb x o) eqn:E; [apply N.eqb_eq in E; congruence|].
    now rewrite IH.
Qed.

Lemma lstrip_suffix isspace text : lstrip isspace text `suffix_of` text.
Proof.
  induction text as [|x rest IH]; cbn; [reflexivity|].
  destruct (isspace x); [now apply suffix_cons_r|reflexivity].
Qed.

Lemma lstrip_head isspace text x :
  head (lstrip isspace text) = Some x -> isspace x = false.
Proof.
  induction text as [|y rest IH]; cbn; [discriminate|].
  destruct (isspace y) eqn:E; [exact IH|]. cbn. now intros [= <-].
Qed.

Lemma lstrip_fixed isspace text x rest :
  text = x :: rest -> isspace x = false -> lstrip isspace text = text.
Proof. intros -> H. cbn. now rewrite H. Qed.

Lemma rstrip_prefix isspace text : rstrip isspace text `prefix_of` text.
Proof.
  unfold rstrip. destruct (lstrip_suffix isspace (reverse text)) as [k Hk].
  exists (reverse k). apply (f_equal reverse) in Hk.
  rewrite reverse_involutive, reverse_app in Hk. exact Hk.
Qed.

Lemma rstrip_last isspace text x :
  last (rstrip isspace text) = Some x -> isspace x = false.
Proof.
  unfold rstrip. rewrite last_reverse. apply lstrip_head.
Qed.

Lemma strip_sublist isspace text : strip isspace text `sublist_of` text.
Proof.
  unfold strip. transitivity (lstrip isspace text).
  - destruct (rstrip_prefix isspace (lstrip isspace text)) as [k Hk].
    assert (H : rstrip isspace (lstrip isspace text)
                `sublist_of` rstrip isspace (lstrip isspace text) ++ k)
      by now apply sublist_inserts_r.
    now rewrite <- Hk in H.
  - destruct (lstrip_suffix isspace text) as [k Hk].
    assert (H : lstrip isspace text `sublist_of` k ++ lstrip isspace text)
      by now apply sublist_inserts_l.
    now rewrite <- Hk in H.
Qed.

Lemma strip_ends isspace text x :
  (head (strip isspace text) = Some x -> isspace x = false) /\
  (last (strip isspace text) = Some x -> isspace x = false).
Proof.
  unfold strip. split; [|apply rstrip_last].
  destruct (rstrip_prefix isspace (lstrip isspace text)) as [k Hk].
  intros Hh. apply (lstrip_head isspace text). rewrite Hk.
  destruct (rstrip isspace (lstrip isspace text)); [discriminate|exact Hh].
Qed.

Lemma clean_text_markers_sublists isspace text :
  let t1 := re_sub_group lbracket rbracket (contains scene) text in
  let t2 := re_sub_group fw_lparen fw_rparen (fun _ => true) t1 in
  let t3 := re_sub_group lparen rparen (fun _ => true) t2 in
  clean_text_markers isspace text `sublist_of` t3 /\
  t3 `sublist_of` t2 /\ t2 `sublist_of` t1 /\ t1 `sublist_of` text.
Proof.
  cbv zeta. unfold clean_text_markers.
  split; [apply strip_sublist|]. repeat split; apply re_sub_group_sublist.
Qed.

(** X11: no parenthesised remark survives the cleaning: in the result of
    [clean_text_markers] no full-width opening parenthesis has a full-width
    closing parenthesis anywhere after it, and no ASCII opening parenthesis
    has an ASCII closing parenthesis anywhere after it. *)
Theorem clean_text_markers_no_parentheses isspace text :
  ~ [fw_lparen; fw_rparen] `sublist_of` clean_text_markers isspace text /\
  ~ [lparen; rparen] `sublist_of` clean_text_markers isspace text.
Proof.
  destruct (clean_text_markers_sublists isspace text) as (H4 & H3 & _).
  split; intros H.
  - eapply (re_sub_group_no_pair fw_lparen fw_rparen).
    etransitivity; [exact H|]. etransitivity; [exact H4|exact H3].
  - eapply (re_sub_group_no_pair lparen rparen).
    etransitivity; [exact H|exact H4].
Qed.

(** X12: the cleaning only deletes: the result consists of characters of the
    text, in their order; and it is stripped: it neither starts nor ends with
    a whitespace character. *)
Theorem clean_text_markers_only_deletes isspace text :
  clean_text_markers isspace text `sublist_of` text /\
  (forall x, head (clean_text_markers isspace text) = Some x -> isspace x = false) /\
  (forall x, last (clean_text_markers isspace text) = Some x -> isspace x = false).
Proof.
  destruct (clean_text_markers_sublists isspace text) as (H4 & H3 & H2 & H1).
  split.
  - etransitivity; [exact H4|]. etransitivity; [exact H3|].
    etransitivity; [exact H2|exact H1].
  - unfold clean_text_markers. split; intros x; apply strip_ends.
Qed.

(** X13: a text with no opening lenticular bracket, no full-width opening
    parenthesis and no ASCII opening parenthesis has nothing to clean: the
    result is the text, stripped. *)
Theorem clean_text_markers_plain isspace text :
  lbracket ∉ text -> fw_lparen ∉ text -> lparen ∉ text ->
  clean_text_markers isspace text = strip isspace text.
Proof.
  intros H1 H2 H3. unfold clean_text_markers. cbv zeta.
  rewrite (re_sub_group_untouched lbracket) by exact H1.
  rewrite (re_sub_group_untouched fw_lparen) by exact H2.
  now rewrite (re_sub_group_untouched lparen) by exact H3.
Qed.

Lemma clean_text_markers_plain_witness :
  clean_text_markers ascii_space [0x20; 0x68; 0x69; 0x20; 0x0A]%N = [0x68; 0x69]%N.
Proof.
  rewrite (clean_text_markers_plain ascii_space [0x20; 0x68; 0x69; 0x20; 0x0A]%N).
  - reflexivity.
  - intros H. repeat (apply elem_of_cons in H as [H|H]; [discriminate H|]).
    now apply elem_of_nil in H.
  - intros H. repeat (apply elem_of_cons in H as [H|H]; [discriminate H|]).
    now apply elem_of_nil in H.
  - intros H. repeat (apply elem_of_cons in H as [H|H]; [discriminate H|]).
    now apply elem_of_nil in H.
Defined.

Example clean_text_markers_remark :
  clean_text_markers ascii_space
    [0x61; fw_lparen; 0x62; fw_rparen; 0x63; lparen; 0x64; rparen; 0x20]%N
  = [0x61; 0x63]%N.
Proof. reflexivity. Qed.

Example clean_text_markers_scene :
  clean_text_markers ascii_space
    ([lbracket; 0x5F00] ++ scene ++ [rbracket; 0x61; lbracket; 0x62; rbracket])%N
  = [0x61; lbracket; 0x62; rbracket]%N.
Proof. reflexivity. Qed.

(** X14: what a call that returns has done.  The transport was opened; steps
    2 to 7 all passed; the output file holds audio, not empty, that was
    received in this call; the five frames of the protocol went out, each
    once and in order, [FinishConnection] delivered among them; and the
    transport was closed, once, the closing being the last thing the
    transport saw before the final log line. *)
Theorem synthesize_return_guarantees self a w :
  r_out (synthesize_to_file self a w) = Returned tt ->
  let r := synthesize_to_file self a w in
  body_outcome self a w = Some (Returned tt) /\
  (exists audio_data,
     audio_data <> [] /\ fs (r_world r) = <[output_file a := audio_data]> (fs w)) /\
  events r = [StartConnection; StartSession; TaskRequest; FinishSession; FinishConnection] /\
  OSent finish_frame ∈ r_obs r /\
  count is_closed (r_obs r) = 1 /\
  (exists before, r_obs r = before ++ [OClosed; OLog LogConnectionClosed]).
Proof.
  intros Hret r. subst r. unfold body_outcome.
  destruct (pending w) as [|s rest] eqn:Hp.
  { rewrite synthesize_to_file_unfold, Hp in Hret. discriminate Hret. }
  destruct (accept s) as [e|] eqn:Ha.
  { rewrite synthesize_to_file_unfold, Hp, Ha in Hret. discriminate Hret. }
  destruct (opened_run self a w s rest Hp Ha) as (Hobs & Hw & Hout).
  destruct (body_counts self a w s rest) as [_ Cc].
  set (rb := steps_2_to_7 self a (opened w s rest)) in *.
  destruct (cleanup_shape (r_world rb)) as (att & recvs & after & Ho & Hatt & Hcase).
  rewrite Hret in Hout.
  destruct Hcase as [(-> & _ & -> & Hc)|(_ & e & Hc)]; rewrite Hc in Hout;
    [|destruct (r_out rb); discriminate Hout].
  assert (Hb : r_out rb = Returned tt) by (destruct (r_out rb) as [[]|]; congruence).
  split; [now rewrite Hb|]. split; [|split; [|split; [|split]]].
  - pose proof (same_fs_cleanup (r_world rb)) as Fc. unfold same_fs in Fc.
    rewrite Hw, Fc.
    destruct (steps_2_to_7_cases self a (opened w s rest))
      as [(e0 & c0 & Hr & _)|(ad & Hne & _ & Hfs & _)].
    + fold rb in Hr. congruence.
    + exists ad. split; [exact Hne|exact Hfs].
  - unfold events. rewrite Hobs, !frames_app.
    change (frames (OLog LogConnected :: ?l)) with (frames l).
    rewrite !map_app.
    fold (events (cleanup (r_world rb))). rewrite events_cleanup.
    fold (events rb). unfold rb.
    pose proof (emits_steps_2_to_7 self a (opened w s rest)) as He.
    fold rb in He. rewrite Hb in He. unfold rb in He. now rewrite He.
  - rewrite Hobs, Ho. apply elem_of_app. right. left.
  - rewrite Hobs, Ho, count_app, Cc. cbn [count is_closed].
    rewrite count_app, count_recvs by reflexivity. reflexivity.
  - rewrite Hobs, Ho.
    exists ((opening_obs self a w ++ OLog LogConnected :: r_obs rb)
            ++ OSent finish_frame :: map ORecv recvs).
    rewrite <- !app_assoc. reflexivity.
Qed.

Lemma synthesize_return_guarantees_witness :
  events (synthesize_to_file client0 args0 (world0 abc_server))
  = [StartConnection; StartSession; TaskRequest; FinishSession; FinishConnection] /\
  count is_closed (r_obs (synthesize_to_file client0 args0 (world0 abc_server))) = 1.
Proof.
  destruct (synthesize_return_guarantees client0 args0 (world0 abc_server) eq_refl)
    as (_ & _ & He & _ & Hc & _).
  split; [exact He|exact Hc].
Defined.

(** X15: when the transport does not open (no server, or the server refuses
    the opening), the call raises the error of the opening as it is.  The
    opening is outside the [try], so there is no cleanup: no frame is sent,
    the transport is not closed, no file is written, and the connection in
    use before the call is still the one in use. *)
Theorem synthesize_connect_failure self a w :
  body_outcome self a w = None ->
  let r := synthesize_to_file self a w in
  (exists e, r_out r = Raised e None /\
             match pending w with
             | [] => e = ConnectionClosed
             | s :: _ => accept s = Some e
             end) /\
  r_obs r = opening_obs self a w /\
  events r = [] /\
  count is_closed (r_obs r) = 0 /\
  fs (r_world r) = fs w /\
  conn (r_world r) = conn w.
Proof.
  intros Hb r. subst r. unfold body_outcome in Hb. rewrite synthesize_to_file_unfold.
  destruct (pending w) as [|s rest].
  - split; [exists ConnectionClosed; split; reflexivity|]. repeat split.
  - destruct (accept s) as [e|]; [|discriminate Hb].
    split; [exists e; split; reflexivity|]. repeat split.
Qed.

Lemma synthesize_connect_failure_witness :
  r_out (synthesize_to_file client0 args0
           (world0 (mkServer (Some (NetError "refused")) [] [])))
  = Raised (NetError "refused") None /\
  r_out (synthesize_to_file client0 args0 (mkWorld 0 [] (mkServer None [] []) ∅))
  = Raised ConnectionClosed None.
Proof.
  destruct (synthesize_connect_failure client0 args0
              (world0 (mkServer (Some (NetError "refused")) [] [])) eq_refl)
    as ((e & He & Ha) & _).
  destruct (synthesize_connect_failure client0 args0
              (mkWorld 0 [] (mkServer None [] []) ∅) eq_refl)
    as ((e' & He' & Ha') & _).
  cbn in Ha, Ha'. injection Ha as <-. subst e'.
  split; [exact He|exact He'].
Defined.

(* ================================================================== *)
(** ** The segment loop of [process_single_file] *)
(* ================================================================== *)

(** The loop over [before ++ rest] is the loop over [before] and then, if
    that ran to its end, the loop over [rest]. *)
Lemma single_file_loop_app isspace isalnum self output_dir n before rest :
  forall i audio_files w,
    single_file_loop isspace isalnum self output_dir n i (before ++ rest) audio_files w
    = let r := single_file_loop isspace isalnum self output_dir n i before audio_files w in
      match d_result r with
      | inl name => r
      | inr audio_files' =>
          d_prepend (d_obs r)
            (single_file_loop isspace isalnum self output_dir n (i + length before) rest
               audio_files' (d_world r))
      end.
Proof.
  induction before as [|item before IH]; intros i audio_files w; cbv zeta.
  - cbn [app single_file_loop d_result d_obs d_world length]. rewrite Nat.add_0_r.
    now destruct (single_file_loop _ _ _ _ _ _ rest _ _).
  - cbn [app single_file_loop length]. cbv zeta.
    replace (i + S (length before)) with (S i + length before) by lia.
    destruct (String.eqb (item_speaker item) "" || is_blank isspace (item_text item)).
    { rewrite IH. cbv zeta.
      destruct (d_result (single_file_loop _ _ _ _ _ _ before _ _)) eqn:E;
        unfold d_prepend; cbn [d_obs d_world d_result]; rewrite ?E; [reflexivity|].
      now rewrite app_assoc. }
    destruct (bool_decide _).
    { rewrite IH. cbv zeta.
      destruct (d_result (single_file_loop _ _ _ _ _ _ before _ _)) eqn:E;
        unfold d_prepend; cbn [d_obs d_world d_result]; rewrite ?E; [reflexivity|].
      now rewrite app_assoc. }
    destruct (prosody_more_file (item_speaker item)) as [name|[[[sr lr] em] es]];
      [reflexivity|].
    rewrite IH. cbv zeta.
    destruct (d_result (single_file_loop _ _ _ _ _ _ before _ _)) eqn:E;
      unfold d_prepend; cbn [d_obs d_world d_result]; rewrite ?E; [reflexivity|].
    now rewrite app_assoc.
Qed.

(** X16: the loop of [process_single_file] does not get past a segment with
    a voice that has no hard-coded values.  When the loop has run through the
    segments [before] and the next segment has a speaker and a text, no file
    yet, and a voice other than the four listed, the read of
    [args.speech_rate] raises [AttributeError] outside the [try]: the loop
    ends there with that error, with the observations and the world of
    [before]; the segments after it are not looked at. *)
Theorem single_file_loop_breaks isspace isalnum self output_dir n i
    before item rest audio_files w audio_files' :
  let r := single_file_loop isspace isalnum self output_dir n i before audio_files w in
  d_result r = inr audio_files' ->
  breaks_loop isspace isalnum output_dir (i + length before) item (fs (d_world r)) ->
  single_file_loop isspace isalnum self output_dir n i (before ++ item :: rest) audio_files w
  = mkDriverRun (d_obs r) (d_world r) (inl "speech_rate").
Proof.
  intros r Hr (Hs & Hb & Hf & Hp). subst r.
  rewrite single_file_loop_app. cbv zeta. rewrite Hr.
  cbn [single_file_loop]. cbv zeta.
  apply String.eqb_neq in Hs. rewrite Hs, Hb. cbn [orb].
  rewrite bool_decide_eq_false_2 by (rewrite Hf; apply is_Some_None).
  rewrite Hp. unfold d_prepend. cbn. now rewrite app_nil_r.
Qed.

Lemma single_file_loop_breaks_witness :
  single_file_loop (fun _ => false) (fun _ => true) client0 "out" 2 0
    [mkItem "hello" "zh_female_x"; mkItem "world" "S_fN2KaTPI1"] [] (world0 abc_server)
  = mkDriverRun [] (world0 abc_server) (inl "speech_rate").
Proof.
  apply (single_file_loop_breaks (fun _ => false) (fun _ => true) client0 "out" 2 0
           [] (mkItem "hello" "zh_female_x") [mkItem "world" "S_fN2KaTPI1"] []
           (world0 abc_server) [] eq_refl).
  repeat split; try discriminate; reflexivity.
Defined.

Lemma try_segment_passes call n i voice_type output_file audio_files w :
  r_out (call w) = Returned tt ->
  try_segment call n i voice_type output_file audio_files w
  = mkRun (OLog (LogGenerating (i + 1) n voice_type) :: r_obs (call w))
      (r_world (call w)) (Returned (audio_files ++ [output_file])).
Proof.
  intros H. unfold try_segment, try_except, bind, logger_info, logger_error, emit, ret.
  cbn. rewrite H. cbn. now rewrite app_nil_r.
Qed.

(** A call leaves the files as they were, or has written the output file;
    a call that returns has written it. *)
Lemma synthesize_fs_cases self a w :
  let r := synthesize_to_file self a w in
  (fs (r_world r) = fs w /\ exists e c, r_out r = Raised e c)
  \/ (exists audio_data,
        audio_data <> [] /\ fs (r_world r) = <[output_file a := audio_data]> (fs w)).
Proof.
  intros r. subst r.
  destruct (pending w) as [|s rest] eqn:Hp.
  { left. rewrite synthesize_to_file_unfold, Hp. cbn. split; [reflexivity|eauto]. }
  destruct (accept s) as [e|] eqn:Ha.
  { left. rewrite synthesize_to_file_unfold, Hp, Ha. cbn. split; [reflexivity|eauto]. }
  destruct (steps_2_to_7_cases self a (opened w s rest))
    as [(e0 & c0 & Hr & _)|(ad & Hne & _ & Hfs & _)].
  - left. destruct (raised_body_out self a w s rest e0 c0 Hp Ha Hr) as [Hfs Hout].
    split; [exact Hfs|].
    destruct (r_out (cleanup _)); eauto.
  - right. exists ad. split; [exact Hne|].
    destruct (opened_run self a w s rest Hp Ha) as (_ & Hw & _).
    pose proof (same_fs_cleanup (r_world (steps_2_to_7 self a (opened w s rest)))) as Fc.
    unfold same_fs in Fc. now rewrite Hw, Fc.
Qed.

(** One segment of [process_more_file.py]: the [try] returns; nothing that
    was on disk is lost; and the file it adds to [audio_files], if any, is
    on disk. *)
Lemma generate_segment_more_file_cases self a n i audio_files w :
  let r := generate_segment_more_file self a n i audio_files w in
  (forall p, on_disk (fs w) p -> on_disk (fs (r_world r)) p) /\
  (r_out r = Returned audio_files
   \/ (r_out r = Returned (audio_files ++ [output_file a])
       /\ on_disk (fs (r_world r)) (output_file a))).
Proof.
  intros r. subst r. unfold generate_segment_more_file, call_synthesize_to_file.
  pose proof (synthesize_fs_cases self a w) as Hc. cbv zeta in Hc.
  assert (Hmono : forall p, on_disk (fs w) p ->
                            on_disk (fs (r_world (synthesize_to_file self a w))) p).
  { intros p Hp. destruct Hc as [[-> _]|(ad & _ & ->)]; [exact Hp|].
    unfold on_disk in *. destruct (decide (output_file a = p)) as [<-|Hn].
    - rewrite lookup_insert_eq. eauto.
    - now rewrite lookup_insert_ne. }
  destruct (r_out (synthesize_to_file self a w)) as [[]|e c] eqn:H.
  - rewrite (try_segment_passes _ _ _ _ _ _ _ H). cbn [r_world r_out].
    split; [exact Hmono|]. right. split; [reflexivity|].
    destruct Hc as [[_ (e & c & He)]|(ad & _ & ->)]; [congruence|].
    unfold on_disk. rewrite lookup_insert_eq. eauto.
  - rewrite (try_segment_catches _ _ _ _ _ _ _ _ _ H). cbn [r_world r_out].
    split; [exact Hmono|]. now left.
Qed.

(** X17: the files that the loop of [process_single_file] returns are on
    disk.  When the files it starts with are on disk and the loop runs to
    its end, every file of the list it returns is on disk in the world it
    leaves; and whatever the loop does, no file that was on disk before it
    is missing after it. *)
Theorem single_file_loop_files_on_disk isspace isalnum self output_dir n items :
  forall i audio_files w files,
    Forall (on_disk (fs w)) audio_files ->
    let r := single_file_loop isspace isalnum self output_dir n i items audio_files w in
    (forall p, on_disk (fs w) p -> on_disk (fs (d_world r)) p) /\
    (d_result r = inr files -> Forall (on_disk (fs (d_world r))) files).
Proof.
  induction items as [|item items IH]; intros i audio_files w files Hin r; subst r;
    cbn [single_file_loop]; cbv zeta.
  - cbn [d_world d_result]. split; [auto|]. intros [= <-]. exact Hin.
  - destruct (String.eqb (item_speaker item) "" || is_blank isspace (item_text item)).
    { unfold d_prepend. cbn [d_world d_result]. apply IH, Hin. }
    destruct (bool_decide _) eqn:Hex.
    { unfold d_prepend. cbn [d_world d_result]. apply IH.
      apply Forall_app. split; [exact Hin|].
      apply Forall_singleton. now apply bool_decide_eq_true_1 in Hex. }
    destruct (prosody_more_file (item_speaker item)) as [name|[[[sr lr] em] es]].
    { cbn [d_world d_result]. split; [auto|]. intros [=]. }
    unfold d_prepend. cbn [d_world d_result].
    match goal with
    | |- context [generate_segment_more_file ?s ?a ?n ?i ?f ?w] =>
        destruct (generate_segment_more_file_cases s a n i f w) as [Hmono Hcase];
        set (rs := generate_segment_more_file s a n i f w) in *
    end.
    assert (Hin' : Forall (on_disk (fs (r_world rs)))
                     match r_out rs with
                     | Returned files0 => files0
                     | Raised _ _ => audio_files
                     end).
    { destruct Hcase as [->|[-> Hd]].
      - eapply Forall_impl; [exact Hin|exact Hmono].
      - apply Forall_app. split; [eapply Forall_impl; [exact Hin|exact Hmono]|].
        apply Forall_singleton. exact Hd. }
    destruct (IH (S i) _ (r_world rs) files Hin') as [Hm Hf].
    split; [|exact Hf].
    intros p Hp. apply Hm, Hmono, Hp.
Qed.

Lemma single_file_loop_files_on_disk_witness :
  let r := single_file_loop (fun _ => false) (fun _ => true) client0 "out" 1 0
             [mkItem "hello" "S_fN2KaTPI1"] [] (world0 abc_server) in
  d_result r = inr ["out/segment_000_S_fN2KaTPI1.mp3"] /\
  Forall (on_disk (fs (d_world r))) ["out/segment_000_S_fN2KaTPI1.mp3"].
Proof.
  cbv zeta.
  assert (H : d_result (single_file_loop (fun _ => false) (fun _ => true) client0 "out" 1 0
                          [mkItem "hello" "S_fN2KaTPI1"] [] (world0 abc_server))
              = inr ["out/segment_000_S_fN2KaTPI1.mp3"]) by (vm_compute; reflexivity).
  split; [exact H|].
  exact (proj2 (single_file_loop_files_on_disk (fun _ => false) (fun _ => true) client0
                  "out" 1 [mkItem "hello" "S_fN2KaTPI1"] 0 [] (world0 abc_server)
                  ["out/segment_000_S_fN2KaTPI1.mp3"] (Forall_nil_2 _)) H).
Defined.

Lemma prosody_more_file_hard_coded voice_type :
  hard_coded_voice voice_type = true ->
  exists p, prosody_more_file voice_type = inr p.
Proof.
  unfold hard_coded_voice, prosody_more_file. intros H.
  destruct (String.eqb voice_type "S_7ndFaTPI1"); [eauto|].
  destruct (String.eqb voice_type "S_vNQFaTPI1"); [cbn [orb]; eauto|].
  destruct (String.eqb voice_type "S_hUnLaTPI1"); [cbn [orb]; eauto|].
  destruct (String.eqb voice_type "S_fN2KaTPI1"); [cbn [orb]; eauto|].
  discriminate H.
Qed.

(** X18: the loop of [process_single_file] runs to its end when every
    segment's voice is one of the four with hard-coded values, whatever the
    servers do: each failure of the client is caught.  The list it returns
    starts with the files it was given. *)
Theorem single_file_loop_completes isspace isalnum self output_dir n items :
  forallb (fun item => hard_coded_voice (item_speaker item)) items = true ->
  forall i audio_files w,
    exists more,
      d_result (single_file_loop isspace isalnum self output_dir n i items audio_files w)
      = inr (audio_files ++ more).
Proof.
  induction items as [|item items IH]; intros Hall i audio_files w;
    cbn [single_file_loop]; cbv zeta.
  - exists []. cbn [d_result]. now rewrite app_nil_r.
  - cbn [forallb] in Hall. apply andb_true_iff in Hall as [Hv Hall].
    specialize (IH Hall).
    destruct (String.eqb (item_speaker item) "" || is_blank isspace (item_text item)).
    { unfold d_prepend. cbn [d_result]. apply IH. }
    destruct (bool_decide _).
    { unfold d_prepend. cbn [d_result].
      destruct (IH (S i) (audio_files ++ [segment_file output_dir i
                                            (safe_voice_of isalnum (item_speaker item))]) w)
        as [more Hm].
      eexists. rewrite Hm, <- app_assoc. reflexivity. }
    destruct (prosody_more_file_hard_coded _ Hv) as [[[[sr lr] em] es] ->].
    unfold d_prepend. cbn [d_result].
    match goal with
    | |- context [generate_segment_more_file ?s ?a ?n ?i ?f ?w] =>
        destruct (generate_segment_more_file_cases s a n i f w) as [_ Hcase];
        set (rs := generate_segment_more_file s a n i f w) in *
    end.
    destruct Hcase as [->|[-> _]].
    + apply IH.
    + match goal with
      | |- context [single_file_loop _ _ _ _ _ ?j _ (audio_files ++ ?l) ?w'] =>
          destruct (IH j (audio_files ++ l) w') as [more Hm]
      end.
      eexists. rewrite Hm, <- app_assoc. reflexivity.
Qed.

Lemma single_file_loop_completes_witness :
  exists more,
    d_result (single_file_loop (fun _ => false) (fun _ => true) client0 "out" 2 0
                [mkItem "hello" "S_fN2KaTPI1"; mkItem "world" "S_7ndFaTPI1"] ["intro.mp3"]
                (world0 abc_server))
    = inr (["intro.mp3"] ++ more).
Proof.
  apply (single_file_loop_completes (fun _ => false) (fun _ => true) client0 "out" 2
           [mkItem "hello" "S_fN2KaTPI1"; mkItem "world" "S_7ndFaTPI1"] eq_refl 0
           ["intro.mp3"] (world0 abc_server)).
Defined.

(** *** Small runs, evaluated *)

Example abc_run_returns :
  r_out (synthesize_to_file client0 args0 (world0 abc_server)) = Returned tt.
Proof. reflexivity. Qed.

Example abc_run_file :
  fs (r_world (synthesize_to_file client0 args0 (world0 abc_server))) !! "out.mp3"
  = Some [x41; x42; x43].
Proof. vm_compute. reflexivity. Qed.

Example pad3_7 : pad3 7 = "007".
Proof. reflexivity. Qed.

Example segment_file_12 :
  segment_file "output/kepuwawa/doc" 12 "S_vJMEaTPI1"
  = "output/kepuwawa/doc/segment_012_S_vJMEaTPI1.mp3".
Proof. reflexivity. Qed.
